(** * Vault CRM loader: a shallow embedding of the batch transfer engine

    The development follows [js/api.js] (the [VeevaAPI] client: [pullData],
    [pushData], [exportMetadata]) and [js/app.js] (the [AppState] object and
    [autoMapColumns]).

    Conventions of the embedding.
    - JavaScript numbers that the code uses as counters, sizes and offsets are
      integers of [Z]; [Math.floor (x / 2)] is [x / 2] on [Z].
    - JavaScript strings are [string].  [JS.toLowerCase] lowers the letters
      A-Z, which is what the language does on ASCII text; the column mapper,
      whose names are any text, takes the lowering as a parameter.
    - An object used as a dictionary ([record], [vaultFieldsLower],
      [AppState.columnMappings]) is a finite map of its own properties.  In
      the column mapper, which reads [vaultFieldsLower] under keys that the
      object may not have, a read that finds no own property gives the
      member inherited from [Object.prototype], and the key [__proto__]
      never becomes an own property.
    - The network is an oracle: a function from the request (and its position
      in the run) to what [fetch] produced.  Every theorem quantifies over it.
    - [Logger] calls and the DOM updates only write to the page; they are left
      out.  A progress callback is a sink whose calls are recorded in the
      trace of the run.
    - A loop that the code does not bound takes fuel; [Diverged] is the answer
      of a run whose fuel ran out. *)

From stdpp Require Import gmap strings list fin_maps sorting.
From Stdlib Require Import ZArith Ascii DecimalString.

Open Scope Z_scope.

(** ** JavaScript values and [String.prototype] helpers *)

Module JS.

(** What a run of an [async] function comes to. *)
Inductive completion (A : Type) : Type :=
  | Returned (value : A)
  | Threw (message : string)
  | Diverged.
Arguments Returned {A} value.
Arguments Threw {A} message.
Arguments Diverged {A}.

(** A JSON value as [response.json()] hands it over. *)
#[local] Unset Elimination Schemes.
Inductive json : Type :=
  | JNull
  | JBool (b : bool)
  | JNumber (n : Z)
  | JString (s : string)
  | JArray (items : list json)
  | JObject (props : list (string * json)).
#[local] Set Elimination Schemes.

(** [s.replace(pat, by)] for a one-character string pattern [pat]: only the
    first occurrence is replaced. *)
Fixpoint replace (pat : ascii) (by_ : string) (s : string) : string :=
  match s with
  | EmptyString => EmptyString
  | String c rest =>
      if Ascii.eqb c pat then by_ +:+ rest else String c (replace pat by_ rest)
  end.

Definition lower_ascii (c : ascii) : ascii :=
  let n := N_of_ascii c in
  if ((65 <=? n) && (n <=? 90))%N then ascii_of_N (n + 32) else c.

(** [s.toLowerCase()] on ASCII text: the letters A-Z are lowered, every
    other character is kept. *)
Fixpoint toLowerCase (s : string) : string :=
  match s with
  | EmptyString => EmptyString
  | String c rest => String (lower_ascii c) (toLowerCase rest)
  end.

(** [arr.slice(start, end)] with the relative-index rules of the language:
    a negative index counts from the end, everything is clamped to the
    array. *)
Definition slice {A : Type} (arr : list A) (start end_ : Z) : list A :=
  let len := Z.of_nat (length arr) in
  let k := if start <? 0 then Z.max (len + start) 0 else Z.min start len in
  let final := if end_ <? 0 then Z.max (len + end_) 0 else Z.min end_ len in
  take (Z.to_nat (final - k)) (drop (Z.to_nat k) arr).

(** Template-literal rendering of an integer. *)
Definition number_to_string (n : Z) : string :=
  NilZero.string_of_int (Z.to_int n).

(** [response.ok] of the Fetch API: the status is in the range 200-299. *)
Definition response_ok (status : Z) : bool :=
  (200 <=? status) && (status <=? 299).

(** What one [fetch] followed by reading the body comes to: the promise is
    rejected (network error, unreadable body), or there is a response with a
    status and a decoded body. *)
Inductive fetched (A : Type) : Type :=
  | Rejected (message : string)
  | Response (status : Z) (body : A).
Arguments Rejected {A} message.
Arguments Response {A} status body.

End JS.

Import JS.

(** [getSessionId] as the three operations see it: a session id, or the
    error it throws. *)
Inductive session : Type :=
  | SessionId (id : string)
  | AuthenticationFailed (message : string).

(** ** PullEngine: [VeevaAPI.pullData] *)

Module Pull.

Abbreviation record := (gmap string json).

(** [record[key].replace('[', '').replace(']', '')] *)
Definition clean_string (s : string) : string :=
  replace "]" "" (replace "[" "" s).

(** The body of the inner [forEach]: a property is rewritten only when
    [typeof record[key] === 'string']. *)
Definition clean_field (r : record) (key : string) : record :=
  match r !! key with
  | Some (JString s) => <[key := JString (clean_string s)]> r
  | _ => r
  end.

(** [Object.keys(record)]; the order of the keys plays no part below. *)
Definition Object_keys (r : record) : list string := (map_to_list r).*1.

Definition clean_record (r : record) : record :=
  foldl clean_field r (Object_keys r).

(** [records.forEach(record => ...)]: the records are cleaned in place. *)
Definition clean_records (records : list record) : list record :=
  clean_record <$> records.

(** The body of a page: [batchData.data], absent when the property is
    missing or null. *)
Definition page := option (list record).

(** The remote service: the answer to the [n]-th request of the run, for
    the given [limit] and [offset]. *)
Definition server := nat -> Z -> Z -> fetched page.

Inductive event : Type :=
  | Request (limit offset : Z)
  | Progress (count : Z).

Record state : Type := mkState {
  offset : Z;
  allData : list record;
  moreData : bool;
  issued : nat;
  trace : list event
}.

Definition initial : state :=
  {| offset := 0; allData := []; moreData := true; issued := 0; trace := [] |}.

(** The page a request delivered, or [None] when the [try] block threw
    (rejected fetch, or [!response.ok]). *)
Definition delivered (r : fetched page) : option page :=
  match r with
  | Rejected _ => None
  | Response status body => if response_ok status then Some body else None
  end.

Section Engine.

Variable srv : server.
Variable batchSize : Z.
Variable progressCallback : bool.

Definition request (st : state) (limit : Z) : fetched page * state :=
  (srv (issued st) limit (offset st),
   {| offset := offset st; allData := allData st; moreData := moreData st;
      issued := S (issued st);
      trace := trace st ++ [Request limit (offset st)] |}).

Definition stop (st : state) : state :=
  {| offset := offset st; allData := allData st; moreData := false;
     issued := issued st; trace := trace st |}.

Definition skip (st : state) (by_ : Z) : state :=
  {| offset := offset st + by_; allData := allData st; moreData := moreData st;
     issued := issued st; trace := trace st |}.

(** A non-empty page is cleaned, appended, the offset moves by the size the
    page was asked with, and the callback gets the running total. *)
Definition ingest (st : state) (records : list record) (size : Z) : state :=
  let all := allData st ++ clean_records records in
  {| offset := offset st + size; allData := all; moreData := moreData st;
     issued := issued st;
     trace := trace st ++
       (if progressCallback then [Progress (Z.of_nat (length all))] else []) |}.

Definition accept (st : state) (p : page) (size : Z) : state :=
  match p with
  | None | Some [] => stop st
  | Some records => ingest st records size
  end.

(** One turn of [while (moreData)]. *)
Definition iteration (st : state) : state :=
  let '(r, st1) := request st batchSize in
  match delivered r with
  | Some p => accept st1 p batchSize
  | None =>
      let smallerBatchSize := batchSize / 2 in
      if 10 <=? smallerBatchSize then
        let '(r2, st2) := request st1 smallerBatchSize in
        match delivered r2 with
        | Some p => accept st2 p smallerBatchSize
        | None => skip st2 smallerBatchSize
        end
      else skip st1 batchSize
  end.

Fixpoint loop (fuel : nat) (st : state) : option state :=
  if moreData st then
    match fuel with
    | O => None
    | S fuel' => loop fuel' (iteration st)
    end
  else Some st.

Definition pullData (fuel : nat) (s : session)
  : completion (list record) * list event :=
  match s with
  | AuthenticationFailed message => (Threw message, [])
  | SessionId _ =>
      match loop fuel initial with
      | Some st => (Returned (allData st), trace st)
      | None => (Diverged, [])
      end
  end.

End Engine.

(** The specification's reading of the sanitization, written from its words: one
    pass over the value that drops the first '[' it meets and the first ']'
    it meets and keeps every other character. *)
Fixpoint strip_first (seen_open seen_close : bool) (s : string) : string :=
  match s with
  | EmptyString => EmptyString
  | String c rest =>
      if Ascii.eqb c "[" && negb seen_open then strip_first true seen_close rest
      else if Ascii.eqb c "]" && negb seen_close then strip_first seen_open true rest
      else String c (strip_first seen_open seen_close rest)
  end.

Definition first_brackets_removed (s : string) : string :=
  strip_first false false s.

Definition clean_value (v : json) : json :=
  match v with
  | JString s => JString (clean_string s)
  | other => other
  end.

(** A record in which every string value was sanitized and nothing else
    changed. *)
Definition sanitized (r : record) : record := clean_value <$> r.

(** The page requests of a run, as (limit, offset), in order. *)
Definition requests (tr : list event) : list (Z * Z) :=
  omap (fun e => match e with Request l o => Some (l, o) | _ => None end) tr.

End Pull.

(** ** PushEngine: [VeevaAPI.pushData] *)

Module Push.

(** [const CORS_PROXY] of [api.js]. *)
Definition CORS_PROXY : string := "https://cors-anywhere-syse.onrender.com/".

(** [operation === 'merge' ? Math.min(batchSize, 10) : Math.min(batchSize, 500)] *)
Definition actualBatchSize (operation : string) (batchSize : Z) : Z :=
  if String.eqb operation "merge" then Z.min batchSize 10 else Z.min batchSize 500.

(** The [switch (operation)]: the verb and the target of the write. *)
Definition target (apiUrl objectName operation : string) : string * string :=
  let url := apiUrl +:+ "/api/v24.1/vobjects/" +:+ objectName in
  if String.eqb operation "insert" then ("POST", url)
  else if String.eqb operation "update" then ("PUT", url)
  else if String.eqb operation "delete" then ("DELETE", url)
  else if String.eqb operation "merge" then ("POST", url +:+ "/actions/merge")
  else ("POST", url).

(** The [status] of a log entry: [response.status], or the string 'Error'. *)
Inductive status : Type :=
  | Code (code : Z)
  | Error.

Record log_entry : Type := mkLog {
  batch : Z;
  log_status : status;
  message : string;
  response : string
}.

Record results : Type := mkResults {
  total : Z;
  success : Z;
  failures : Z;
  logs : list log_entry
}.

(** What the [try] block of one batch comes to: [fetch] or [response.text()]
    threw an error with a message and a stack, or the response arrived. *)
Inductive written : Type :=
  | WriteThrew (error_message error_stack : string)
  | WriteResponse (code : Z) (responseText : string).

Section Engine.

Variable A : Type.

Record write : Type := mkWrite {
  method : string;
  url : string;
  authorization : string;
  body : list A
}.

Inductive event : Type :=
  | Submit (w : write)
  | Progress (done total : Z).

(** The remote service: the answer to the write of batch [i]. *)
Variable srv : nat -> write -> written.
Variable apiUrl objectName : string.
Variable operation : string.
Variable progressCallback : bool.

(** [for (let i = 0; i < data.length; i += actualBatchSize)
       batches.push(data.slice(i, i + actualBatchSize))] *)
Fixpoint prepare (fuel : nat) (data : list A) (size i : Z)
    (batches : list (list A)) : option (list (list A)) :=
  if i <? Z.of_nat (length data) then
    match fuel with
    | O => None
    | S fuel' =>
        prepare fuel' data size (i + size) (batches ++ [slice data i (i + size)])
    end
  else Some batches.

Definition succeeded (res : results) (e : log_entry) : results :=
  {| total := total res; success := success res + 1; failures := failures res;
     logs := logs res ++ [e] |}.

Definition failed (res : results) (e : log_entry) : results :=
  {| total := total res; success := success res; failures := failures res + 1;
     logs := logs res ++ [e] |}.

Definition batch_label (i : nat) : string :=
  "Batch " +:+ number_to_string (Z.of_nat i + 1).

(** The [try]/[catch] of one batch: exactly one counter moves and one entry
    is pushed. *)
Definition record_outcome (res : results) (i : nat) (w : written) : results :=
  match w with
  | WriteResponse code responseText =>
      if response_ok code then
        succeeded res
          {| batch := Z.of_nat i + 1; log_status := Code code;
             message := batch_label i +:+ " processed successfully";
             response := responseText |}
      else
        failed res
          {| batch := Z.of_nat i + 1; log_status := Code code;
             message := batch_label i +:+ " failed: " +:+ number_to_string code;
             response := responseText |}
  | WriteThrew error_message error_stack =>
      failed res
        {| batch := Z.of_nat i + 1; log_status := Error;
           message := batch_label i +:+ " failed: " +:+ error_message;
           response := error_stack |}
  end.

Definition write_of (sessionId : string) (b : list A) : write :=
  let '(verb, address) := target apiUrl objectName operation in
  {| method := verb; url := CORS_PROXY +:+ address;
     authorization := "Bearer " +:+ sessionId; body := b |}.

(** What batch [i] leaves on the trace: its write, then the call of the
    callback. *)
Definition batch_events (sessionId : string) (count : Z) (i : nat)
    (b : list A) : list event :=
  Submit (write_of sessionId b) ::
  (if progressCallback then [Progress (Z.of_nat i + 1) count] else []).

(** [const results = { total: batches.length, success: 0, failures: 0,
    logs: [] }] *)
Definition fresh (count : Z) : results :=
  {| total := count; success := 0; failures := 0; logs := [] |}.

(** [for (let i = 0; i < batches.length; i++)]: [remaining] is
    [batches.slice(i)], [count] is [batches.length]. *)
Fixpoint process (sessionId : string) (count : Z) (remaining : list (list A))
    (i : nat) (res : results) (tr : list event) : results * list event :=
  match remaining with
  | [] => (res, tr)
  | b :: rest =>
      let w := write_of sessionId b in
      let res' := record_outcome res i (srv i w) in
      let tr' := tr ++ batch_events sessionId count i b in
      process sessionId count rest (S i) res' tr'
  end.

Definition pushData (fuel : nat) (s : session) (data : list A) (batchSize : Z)
  : completion results * list event :=
  match s with
  | AuthenticationFailed message => (Threw message, [])
  | SessionId sessionId =>
      match prepare fuel data (actualBatchSize operation batchSize) 0 [] with
      | None => (Diverged, [])
      | Some batches =>
          let count := Z.of_nat (length batches) in
          let '(res, tr) := process sessionId count batches 0 (fresh count) [] in
          (Returned res, tr)
      end
  end.

End Engine.

Arguments Submit {A} w.
Arguments Progress {A} done total.
Arguments mkWrite {A} method url authorization body.
Arguments method {A} w.
Arguments url {A} w.
Arguments authorization {A} w.
Arguments body {A} w.

(** The entry that the outcome of batch [i] pushes on [results.logs]. *)
Definition pushed_entry (i : nat) (w : written) : log_entry :=
  match w with
  | WriteResponse code responseText =>
      {| batch := Z.of_nat i + 1; log_status := Code code;
         message :=
           if response_ok code
           then batch_label i +:+ " processed successfully"
           else batch_label i +:+ " failed: " +:+ number_to_string code;
         response := responseText |}
  | WriteThrew error_message error_stack =>
      {| batch := Z.of_nat i + 1; log_status := Error;
         message := batch_label i +:+ " failed: " +:+ error_message;
         response := error_stack |}
  end.

(** The writes of a run, in order. *)
Definition submitted {A : Type} (tr : list (event A)) : list (write A) :=
  omap (fun e => match e with Submit w => Some w | _ => None end) tr.

(** The ceiling of the operation: 10 for merge, 500 for the others. *)
Definition ceiling (operation : string) : Z :=
  if String.eqb operation "merge" then 10 else 500.

(** The specification's reading of the partition, written from its words: batch
    number [j] is the stretch of [size] records that starts at [j * size]. *)
Definition stretch {A : Type} (size : nat) (data : list A) (j : nat) : list A :=
  take size (drop (j * size) data).

(** [ceil(M / N)] on integers. *)
Definition ceil_div (m n : Z) : Z := (m + n - 1) / n.

(** The number of batches for records [data] and batch size [size]. *)
Definition batch_count {A : Type} (size : nat) (data : list A) : nat :=
  Z.to_nat (ceil_div (Z.of_nat (length data)) (Z.of_nat size)).

End Push.

(** ** MetadataCollector: [VeevaAPI.exportMetadata] *)

Module Metadata.

(** [Array.prototype.sort()] without a comparator, on strings: the order of
    the code units, which on ASCII names is the order of the bytes. *)
Definition sort (names : list string) : list string :=
  merge_sort String.leb names.

(** A row of the result: [{'Object Name': ..., 'Field Name': ...}]. *)
Record pair : Type := mkPair {
  Object_Name : string;
  Field_Name : string
}.

Inductive event : Type :=
  | ListObjects
  | ListFields (objectName : string)
  | Progress (processed total : Z).

(** The body of a field listing: [fieldData.object.fields] mapped to the
    names, absent when [fieldData.object] or its [fields] is missing. *)
Definition field_listing := option (list string).

Section Engine.

(** The answer to the object listing (a body without an [objects] array
    makes [objectsData.objects.map] throw, like a rejection), and the answer
    to the field listing of the [i]-th object. *)
Variable listing : fetched (list string).
Variable srv : nat -> string -> fetched field_listing.
Variable progressCallback : bool.

(** What one object adds to [results]: the inner [try]/[catch] swallows
    every error, and a response that is not ok or has no fields adds
    nothing. *)
Definition contribution (objectName : string) (r : fetched field_listing)
  : list pair :=
  match r with
  | Rejected _ => []
  | Response code body =>
      if response_ok code then
        match body with
        | Some names => mkPair objectName <$> sort names
        | None => []
        end
      else []
  end.

(** [for (let i = 0; i < objects.length; i++)] *)
Fixpoint collect (totalObjects : Z) (remaining : list string) (i : nat)
    (results : list pair) (tr : list event) : list pair * list event :=
  match remaining with
  | [] => (results, tr)
  | objectName :: rest =>
      let results' := results ++ contribution objectName (srv i objectName) in
      let tr' := tr ++ ListFields objectName ::
        (if progressCallback then [Progress (Z.of_nat i + 1) totalObjects]
         else []) in
      collect totalObjects rest (S i) results' tr'
  end.

Definition exportMetadata (s : session) : completion (list pair) * list event :=
  match s with
  | AuthenticationFailed message => (Threw message, [])
  | SessionId _ =>
      match listing with
      | Rejected message => (Threw message, [ListObjects])
      | Response code names =>
          if response_ok code then
            let objects := sort names in
            let '(results, tr) :=
              collect (Z.of_nat (length objects)) objects 0 [] [ListObjects] in
            (Returned results, tr)
          else
            (Threw ("Failed to get objects: " +:+ number_to_string code),
             [ListObjects])
      end
  end.

End Engine.

(** The calls of the progress callback, in order. *)
Definition progress_calls (tr : list event) : list (Z * Z) :=
  omap (fun e => match e with Progress p t => Some (p, t) | _ => None end) tr.

(** A field fetch that failed: the request was rejected, or the status is
    not a success. *)
Definition fetch_failed (r : fetched field_listing) : Prop :=
  match r with
  | Rejected _ => True
  | Response code _ => response_ok code = false
  end.

End Metadata.

(** ** ColumnMapper: [AppState] and [autoMapColumns] of [app.js] *)

Module Mapper.

(** [String.prototype.toLowerCase] is a parameter of the mapper.  What is
    taken of it: on a text of ASCII characters it lowers the letters A-Z and
    keeps the rest, and it never turns a text that has characters into the
    empty text.  What it does to the other cased letters is left open. *)
Fixpoint ascii_text (s : string) : bool :=
  match s with
  | EmptyString => true
  | String c rest => (N_of_ascii c <? 128)%N && ascii_text rest
  end.

Record lowering : Type := mkLowering {
  lower :> string -> string;
  lower_ascii_text : ∀ s, ascii_text s = true -> lower s = toLowerCase s;
  lower_not_empty : ∀ s, lower s = "" -> s = ""
}.

(** The lowering that keeps every character outside A-Z. *)
Definition ascii_lowering : lowering :=
  {| lower := toLowerCase;
     lower_ascii_text := fun _ _ => eq_refl;
     lower_not_empty := fun s =>
       match s with
       | EmptyString => fun _ => eq_refl
       | String c rest => fun H =>
           match H in _ = t
             return match t with
                    | EmptyString => String c rest = EmptyString
                    | String _ _ => True
                    end
           with eq_refl => I end
       end |}.

(** What a property of the two dictionaries of the mapper can hold: a text,
    or a member that every object inherits from [Object.prototype] (a
    function, or for [__proto__] the prototype itself), given by its name. *)
Inductive value : Type :=
  | Text (text : string)
  | Inherited (name : string).

(** The names that an object literal [{}] inherits from [Object.prototype]. *)
Definition Object_prototype : list string :=
  ["constructor"; "hasOwnProperty"; "isPrototypeOf"; "propertyIsEnumerable";
   "toLocaleString"; "toString"; "valueOf"; "__proto__";
   "__defineGetter__"; "__defineSetter__";
   "__lookupGetter__"; "__lookupSetter__"].

(** [obj[key] = v] on an object literal, as a change of its own properties:
    every key becomes a property of the object but [__proto__], which is the
    accessor of its prototype (a text given to it is dropped, and the
    prototype itself is no property). *)
Definition assign {A : Type} (key : string) (v : A) (obj : gmap string A)
  : gmap string A :=
  if String.eqb key "__proto__" then obj else <[key := v]> obj.

(** [obj[key]] on an object literal whose own properties are texts: the own
    property, else the inherited member of that name, else [undefined]. *)
Definition read (obj : gmap string string) (key : string) : option value :=
  match obj !! key with
  | Some text => Some (Text text)
  | None =>
      if bool_decide (key ∈ Object_prototype) then Some (Inherited key)
      else None
  end.

(** [AppState.inputFileData]: the columns of the file and its rows. *)
Record file_data : Type := mkFile {
  columns : list string;
  data : list (gmap string string)
}.

(** The part of [AppState] that the mapper reads and writes;
    [columnMappings] holds the own properties of the object, which are what
    [Object.keys] lists. *)
Record AppState : Type := mkApp {
  inputFileData : option file_data;
  availableFields : list string;
  columnMappings : gmap string value
}.

Definition setInputFileData (d : file_data) (st : AppState) : AppState :=
  {| inputFileData := Some d; availableFields := availableFields st;
     columnMappings := columnMappings st |}.

Definition setAvailableFields (fields : list string) (st : AppState) : AppState :=
  {| inputFileData := inputFileData st; availableFields := fields;
     columnMappings := columnMappings st |}.

(** [this.columnMappings[fileColumn] = vaultField] *)
Definition setColumnMapping (fileColumn : string) (vaultField : value)
    (st : AppState) : AppState :=
  {| inputFileData := inputFileData st; availableFields := availableFields st;
     columnMappings := assign fileColumn vaultField (columnMappings st) |}.

(** [this.columnMappings = {}] *)
Definition clearColumnMappings (st : AppState) : AppState :=
  {| inputFileData := inputFileData st; availableFields := availableFields st;
     columnMappings := ∅ |}.

(** [vaultFields.forEach(field => vaultFieldsLower[field.toLowerCase()] = field)]
    on [vaultFieldsLower = {}]: the own properties of the object. *)
Definition vaultFieldsLower (L : lowering) (vaultFields : list string)
  : gmap string string :=
  foldl (fun m field => assign (L field) field m) ∅ vaultFields.

(** The value of [m[key]] when the condition [if (m[key])] holds: every
    value but [undefined] and the empty text. *)
Definition truthy (m : gmap string string) (key : string) : option value :=
  match read m key with
  | Some (Text EmptyString) => None
  | found => found
  end.

(** The body of [columns.forEach(column => ...)]. *)
Definition map_column (L : lowering) (vaultFields : list string)
    (lowered : gmap string string) (st : AppState) (column : string)
  : AppState :=
  if bool_decide (column ∈ vaultFields) then
    setColumnMapping column (Text column) st
  else match truthy lowered (L column) with
  | Some field => setColumnMapping column field st
  | None =>
  match truthy lowered (L (replace "_" " " column)) with
  | Some field => setColumnMapping column field st
  | None =>
  match truthy lowered (L (replace " " "_" column)) with
  | Some field => setColumnMapping column field st
  | None => st
  end end end.

(** What [map_column] gives to [setColumnMapping] for a column, if it calls
    it. *)
Definition chosen (L : lowering) (vaultFields : list string)
    (lowered : gmap string string) (column : string) : option value :=
  if bool_decide (column ∈ vaultFields) then Some (Text column)
  else match truthy lowered (L column) with
  | Some field => Some field
  | None =>
  match truthy lowered (L (replace "_" " " column)) with
  | Some field => Some field
  | None => truthy lowered (L (replace " " "_" column))
  end end.

Definition autoMapColumns (L : lowering) (st : AppState) : AppState :=
  match inputFileData st with
  | None => st
  | Some file =>
      match availableFields st with
      | [] => st
      | _ :: _ =>
          let st := clearColumnMappings st in
          let vaultFields := availableFields st in
          foldl (map_column L vaultFields (vaultFieldsLower L vaultFields)) st
            (columns file)
      end
  end.

(** The contract [autoMap(localColumns, remoteFields)]: the inputs are
    loaded into the state ([handleFileUpload], [onObjectSelected]) and the
    mapper runs. *)
Definition autoMap (L : lowering) (localColumns remoteFields : list string)
    (st : AppState) : AppState :=
  autoMapColumns L
    (setAvailableFields remoteFields
       (setInputFileData {| columns := localColumns; data := [] |} st)).

(** The three keys that [map_column] looks up for a column. *)
Definition lookup_keys (L : lowering) (column : string) : list string :=
  [L column; L (replace "_" " " column); L (replace " " "_" column)].

(** The key is an own property of [vaultFieldsLower]: it is not [__proto__]
    and some remote field lowers to it. *)
Definition own_key (L : lowering) (remoteFields : list string) (key : string)
  : Prop :=
  key ≠ "__proto__" ∧ Exists (fun field => L field = key) remoteFields.

(** A column whose lookups never fall through to an inherited member: it is
    not [__proto__], and each of its three keys that is a name of
    [Object.prototype] is an own property of [vaultFieldsLower]. *)
Definition plain (L : lowering) (remoteFields : list string) (column : string)
  : Prop :=
  column ≠ "__proto__" ∧
  Forall (fun key => key ∈ Object_prototype -> own_key L remoteFields key)
    (lookup_keys L column).

(** The specification's reading of the matching, written from its words. A remote
    field matches a name case-insensitively when both lower to the same
    text. *)
Definition ci_match (L : lowering) (remoteFields : list string)
    (name field : string) : Prop :=
  field ∈ remoteFields ∧ L field = L name.

Definition no_ci_match (L : lowering) (remoteFields : list string)
    (name : string) : Prop :=
  ∀ field, ¬ ci_match L remoteFields name field.

(** The four rules in their priority order; a rule applies only when all
    the rules before it found nothing. *)
Inductive matched (L : lowering) (remoteFields : list string) (column : string)
  : option string -> Prop :=
  | exact_hit :
      column ∈ remoteFields ->
      matched L remoteFields column (Some column)
  | insensitive_hit field :
      column ∉ remoteFields ->
      ci_match L remoteFields column field ->
      matched L remoteFields column (Some field)
  | underscore_hit field :
      column ∉ remoteFields ->
      no_ci_match L remoteFields column ->
      ci_match L remoteFields (replace "_" " " column) field ->
      matched L remoteFields column (Some field)
  | space_hit field :
      column ∉ remoteFields ->
      no_ci_match L remoteFields column ->
      no_ci_match L remoteFields (replace "_" " " column) ->
      ci_match L remoteFields (replace " " "_" column) field ->
      matched L remoteFields column (Some field)
  | no_hit :
      column ∉ remoteFields ->
      no_ci_match L remoteFields column ->
      no_ci_match L remoteFields (replace "_" " " column) ->
      no_ci_match L remoteFields (replace " " "_" column) ->
      matched L remoteFields column None.

End Mapper.

(** ** SessionManager: [VeevaAPI.init], [getSessionId], [testConnection] *)

Module Session.

(** The fields of the [VeevaAPI] object; [sessionId] is [None] for [null]
    and for [undefined]. *)
Record VeevaAPI : Type := mkAPI {
  sessionId : option string;
  apiUrl : string;
  username : string;
  password : string;
  verifySSL : bool
}.

Definition init (url user pass : string) (verify : bool) (api : VeevaAPI)
  : VeevaAPI :=
  {| sessionId := None; apiUrl := url; username := user; password := pass;
     verifySSL := verify |}.

(** The authentication exchange: the address and the two form fields. *)
Record auth_request : Type := mkAuth {
  auth_url : string;
  form_username : string;
  form_password : string
}.

(** What [response.json()] gives for the exchange: it throws, or it is an
    object of which the code reads [sessionId] and [message] (strings when
    present). *)
Inductive auth_body : Type :=
  | Unreadable (error_message : string)
  | Decoded (session_id : option string) (detail : option string).

Definition authenticator := auth_request -> fetched auth_body.

Definition auth_request_of (api : VeevaAPI) : auth_request :=
  {| auth_url := Push.CORS_PROXY +:+ apiUrl api +:+ "/api/v24.1/auth";
     form_username := username api; form_password := password api |}.

(** [errorData.message || 'No details available'] *)
Definition details (detail : option string) : string :=
  match detail with
  | Some (String c rest) => String c rest
  | _ => "No details available"
  end.

(** [getSessionId]: the value it resolves to ([None] is [undefined]) or the
    error it throws, the object afterwards, and the exchanges it made. *)
Definition getSessionId (srv : authenticator) (api : VeevaAPI)
  : completion (option string) * VeevaAPI * list auth_request :=
  match sessionId api with
  | Some (String c rest) => (Returned (Some (String c rest)), api, [])
  | _ =>
      let req := auth_request_of api in
      match srv req with
      | Rejected message => (Threw message, api, [req])
      | Response code body =>
          if response_ok code then
            match body with
            | Unreadable message => (Threw message, api, [req])
            | Decoded sid _ =>
                (Returned sid,
                 {| sessionId := sid; apiUrl := apiUrl api;
                    username := username api; password := password api;
                    verifySSL := verifySSL api |},
                 [req])
            end
          else
            match body with
            | Unreadable message => (Threw message, api, [req])
            | Decoded _ detail =>
                (Threw ("Authentication failed: " +:+ number_to_string code
                        +:+ " - " +:+ details detail),
                 api, [req])
            end
      end
  end.

Definition testConnection (srv : authenticator) (api : VeevaAPI)
  : bool * VeevaAPI * list auth_request :=
  let '(outcome, api', exchanges) := getSessionId srv api in
  (match outcome with Returned _ => true | _ => false end, api', exchanges).

End Session.

(** ** What a run of [pullData] shows to its caller *)

Module PullRun.

(** The arguments of the calls of the progress callback, in order. *)
Definition progress_counts (tr : list Pull.event) : list Z :=
  omap (fun e => match e with Pull.Progress c => Some c | _ => None end) tr.

(** The running totals after each of the pages, for a start of [before]
    records. *)
Definition running_totals (before : nat) (pages : list (list Pull.record))
  : list Z :=
  (fun j => Z.of_nat (before + length (concat (take (S j) pages)))) <$>
  seq 0 (length pages).

(** A turn of the loop keeps the records and the progress calls as they
    were, or adds the records of one non-empty page and, with a callback,
    one call with the new total. *)
Definition adds_page (progressCallback : bool) (st st' : Pull.state) : Prop :=
  (Pull.allData st' = Pull.allData st ∧
   progress_counts (Pull.trace st') = progress_counts (Pull.trace st)) ∨
  (∃ recs, recs ≠ [] ∧
     Pull.allData st' = Pull.allData st ++ (Pull.sanitized <$> recs) ∧
     progress_counts (Pull.trace st') =
       progress_counts (Pull.trace st) ++
       (if progressCallback
        then [Z.of_nat (length (Pull.allData st'))] else [])).

(** The progress calls of a state agree with its records: the totals grow
    strictly, none exceeds the number of records, and the last one is that
    number. *)
Definition reported (st : Pull.state) : Prop :=
  StronglySorted Z.lt (progress_counts (Pull.trace st)) ∧
  Forall (fun c => 0 < c <= Z.of_nat (length (Pull.allData st)))
    (progress_counts (Pull.trace st)) ∧
  (Pull.allData st = [] -> progress_counts (Pull.trace st) = []) ∧
  (Pull.allData st ≠ [] ->
   last (progress_counts (Pull.trace st)) =
   Some (Z.of_nat (length (Pull.allData st)))).

End PullRun.

(** ** The catalog calls: [VeevaAPI.fetchObjects], [fetchObjectFields] *)

Module Catalog.

Definition fetchObjects (listing : fetched (list string)) (s : session)
  : completion (list string) :=
  match s with
  | AuthenticationFailed message => Threw message
  | SessionId _ =>
      match listing with
      | Rejected message => Threw message
      | Response code names =>
          if response_ok code then Returned (Metadata.sort names)
          else Threw ("Failed to fetch objects: " +:+ number_to_string code)
      end
  end.

(** [data.object.fields.map(field => field.name)] throws a [TypeError] when
    the object or its fields are missing; its text, [type_error], depends on
    the engine. *)
Definition fetchObjectFields (type_error : string)
    (answer : fetched Metadata.field_listing) (s : session)
  : completion (list string) :=
  match s with
  | AuthenticationFailed message => Threw message
  | SessionId _ =>
      match answer with
      | Rejected message => Threw message
      | Response code body =>
          if response_ok code then
            match body with
            | Some names => Returned names
            | None => Threw type_error
            end
          else Threw ("Failed to fetch fields: " +:+ number_to_string code)
      end
  end.

(** The objects whose fields a run of [exportMetadata] asked for. *)
Definition field_requests (tr : list Metadata.event) : list string :=
  omap (fun e => match e with Metadata.ListFields o => Some o | _ => None end) tr.

End Catalog.

(** ** The push and pull operations of [app.js] *)

Module App.

(** [row[fileCol] === null ? '' : String(row[fileCol])] on a row of
    strings: a column that the row does not have reads [undefined]. *)
Definition cell (row : gmap string string) (fileCol : string) : string :=
  match row !! fileCol with
  | Some value => value
  | None => "undefined"
  end.

(** The body of [Object.keys(AppState.columnMappings).forEach]: the column
    is copied only [if (vaultField)]. *)
Definition mapped_step (mappings row : gmap string string)
    (mappedRow : gmap string string) (fileCol : string) : gmap string string :=
  match mappings !! fileCol with
  | Some (String c rest) => <[String c rest := cell row fileCol]> mappedRow
  | _ => mappedRow
  end.

(** [keys] is [Object.keys(AppState.columnMappings)], in the order of the
    object. *)
Definition mapped_row (keys : list string) (mappings row : gmap string string)
  : gmap string string :=
  foldl (mapped_step mappings row) ∅ keys.

(** The merge branch: a copy of the row, value by value. *)
Definition clean_row (row : gmap string string) : gmap string string :=
  foldl (fun cleanRow key => <[key := cell row key]> cleanRow) ∅
    (map_to_list row).*1.

Definition prepareData (crudOperation : string) (keys : list string)
    (mappings : gmap string string) (rows : list (gmap string string))
  : list (gmap string string) :=
  if String.eqb crudOperation "merge" then clean_row <$> rows
  else mapped_row keys mappings <$> rows.

(** The three checks before any data is prepared: the notification shown,
    or [None] when the push goes on. *)
Definition validation (selectedObject : string)
    (inputFileData : option Mapper.file_data) (crudOperation : string)
    (keys : list string) : option string :=
  match selectedObject with
  | EmptyString => Some "Please select a target Vault object"
  | _ =>
      match inputFileData with
      | None => Some "Please select an input file"
      | Some _ =>
          if negb (String.eqb crudOperation "merge") && (length keys =? 0)%nat
          then Some "Please map at least one column"
          else None
      end
  end.

Inductive level : Type := info | success | warning | error.

Definition upper_ascii (c : ascii) : ascii :=
  let n := N_of_ascii c in
  if ((97 <=? n) && (n <=? 122))%N then ascii_of_N (n - 32) else c.

(** [s.charAt(0).toUpperCase() + s.slice(1)] on ASCII text. *)
Definition capitalize (s : string) : string :=
  match s with
  | EmptyString => EmptyString
  | String c rest => String (upper_ascii c) rest
  end.

(** The notification after the push: 'success' only when every batch
    succeeded. *)
Definition summary (crudOperation : string) (res : Push.results)
  : level * string :=
  if Push.success res =? Push.total res then
    (success,
     capitalize crudOperation +:+
     " operation completed successfully. All " +:+
     number_to_string (Push.total res) +:+ " batches processed.")
  else
    (warning,
     capitalize crudOperation +:+ " operation completed with errors. " +:+
     number_to_string (Push.success res) +:+ " of " +:+
     number_to_string (Push.total res) +:+ " batches processed successfully.").

(** [results.logs.forEach]: a line at level info [if (log.status === 200)],
    at level error otherwise. *)
Definition detail (e : Push.log_entry) : level * string :=
  (match Push.log_status e with
   | Push.Code 200 => info
   | _ => error
   end,
   "Batch " +:+ number_to_string (Push.batch e) +:+ ": " +:+ Push.message e).

Definition details (res : Push.results) : list (level * string) :=
  detail <$> Push.logs res.

(** [s.endsWith(suffix)] *)
Fixpoint endsWith (s suffix : string) : bool :=
  String.eqb s suffix ||
  match s with
  | EmptyString => false
  | String _ rest => endsWith rest suffix
  end.

(** [if (!fileName.toLowerCase().endsWith(ext)) fileName += ext] *)
Definition with_extension (ext fileName : string) : string :=
  if endsWith (toLowerCase fileName) ext then fileName else fileName +:+ ext.


(** [validateBatchSize] on what [parseInt] reads in the field ([None] is
    NaN): the reading of the field afterwards. *)
Definition validateBatchSize (crudOperation : string) (value : option Z)
  : option Z :=
  match value with
  | None => Some 1
  | Some v =>
      if v <? 1 then Some 1
      else
        let maxAllowed := if String.eqb crudOperation "merge" then 10 else 2000 in
        if maxAllowed <? v then Some maxAllowed else Some v
  end.

(** Whether the write of a batch succeeded: a response with an ok status. *)
Definition batch_ok (w : Push.written) : bool :=
  match w with
  | Push.WriteResponse code _ => response_ok code
  | Push.WriteThrew _ _ => false
  end.

End App.

(** ** [FileUtils]: the sheet written by [dataToExcel], the rows read by
    [readFile] *)

Module Files.

(** [if (v)] on a JSON value. *)
Definition truthy (v : json) : bool :=
  match v with
  | JNull => false
  | JBool b => b
  | JNumber n => negb (n =? 0)
  | JString EmptyString => false
  | _ => true
  end.





End Files.

(** ** [ConfigStorage] over [localStorage] *)

Module Storage.

Definition STORAGE_KEY : string := "veeva_vault_manager_config".
Definition EMAIL_STORAGE_KEY : string := "veeva_vault_manager_email".

Section Store.

(** The stored objects, [JSON.stringify] on them, and [JSON.parse] ([None]
    when it throws). *)
Variable Config : Type.
Variable stringify : Config -> string.
Variable parse : string -> option Config.

(** [localStorage.setItem] inside [try]: [writable] tells whether it went
    through (it throws when the quota is exceeded). *)
Definition save (key : string) (writable : bool) (c : Config)
    (store : gmap string string) : bool * gmap string string :=
  if writable then (true, <[key := stringify c]> store) else (false, store).

(** [stored ? JSON.parse(stored) : null], and [null] when parsing throws. *)
Definition load (key : string) (store : gmap string string) : option Config :=
  match store !! key with
  | Some (String c rest) => parse (String c rest)
  | _ => None
  end.

Definition saveConfig := save STORAGE_KEY.
Definition loadConfig := load STORAGE_KEY.
Definition saveEmailSettings := save EMAIL_STORAGE_KEY.
Definition loadEmailSettings := load EMAIL_STORAGE_KEY.

End Store.

End Storage.

(** * Properties *)

(** ** Strings *)

Lemma replace_not_empty pat c rest by_ :
  by_ ≠ "" -> replace pat by_ (String c rest) ≠ "".
Proof.
  intros Hby. simpl. destruct (Ascii.eqb c pat); [|discriminate].
  destruct by_; [done | discriminate].
Qed.

Lemma toLowerCase_empty s : toLowerCase s = "" -> s = "".
Proof. destruct s; [done | discriminate]. Qed.

(** ** PullEngine *)

Module PullSpec.
Import Pull.

(** The two [replace] calls in sequence do what one pass with two flags
    does. *)
Lemma strip_first_replace s :
  ∀ seen_open seen_close,
    strip_first seen_open seen_close s =
    let t := if seen_open then s else replace "[" "" s in
    if seen_close then t else replace "]" "" t.
Proof.
  induction s as [|c rest IH]; intros [] []; simpl; try done;
    destruct (Ascii.eqb_spec c "["%char) as [->|Hopen]; simpl;
    try (destruct (Ascii.eqb_spec c "]"%char) as [->|Hclose]; simpl);
    rewrite ?IH; simpl; try done.
Qed.

Lemma clean_field_lookup (r : record) key k :
  clean_field r key !! k =
  if decide (k = key) then clean_value <$> r !! k else r !! k.
Proof.
  unfold clean_field. case_decide as Hk.
  - subst k. destruct (r !! key) as [v|] eqn:Hr; [destruct v|];
      rewrite ?Hr; try done.
    by rewrite lookup_insert_eq.
  - destruct (r !! key) as [v|] eqn:Hr; [destruct v|]; try done.
    by rewrite lookup_insert_ne.
Qed.

Lemma foldl_clean_field keys :
  NoDup keys ->
  ∀ (r : record) k,
    foldl clean_field r keys !! k =
    if decide (k ∈ keys) then clean_value <$> r !! k else r !! k.
Proof.
  induction 1 as [|key keys Hfresh _ IH]; intros r k.
  - destruct (decide (k ∈ [])) as [Hin|]; [by apply elem_of_nil in Hin | done].
  - cbn [foldl]. rewrite IH, !clean_field_lookup.
    destruct (decide (k = key)) as [->|Hne].
    + rewrite decide_False by done. rewrite decide_True by constructor. done.
    + destruct (decide (k ∈ keys)) as [Hin|Hout].
      * rewrite decide_True by (by constructor). done.
      * rewrite decide_False; [done|]. by intros [?|?]%elem_of_cons.
Qed.

Lemma clean_record_fmap (r : record) : clean_record r = sanitized r.
Proof.
  apply map_eq. intros k. unfold clean_record, Object_keys, sanitized.
  rewrite foldl_clean_field by apply NoDup_fst_map_to_list.
  rewrite lookup_fmap. case_decide as Hin; [done|].
  destruct (r !! k) as [v|] eqn:Hr; [|done].
  exfalso. apply Hin. apply list_elem_of_fmap. exists (k, v).
  split; [done|]. by apply elem_of_map_to_list.
Qed.

Section Iteration.

Variable srv : server.
Variable batchSize : Z.
Variable progressCallback : bool.

Local Abbreviation iteration := (iteration srv batchSize progressCallback).
Local Abbreviation accept := (accept progressCallback).

Lemma requests_app tr1 tr2 : requests (tr1 ++ tr2) = requests tr1 ++ requests tr2.
Proof. unfold requests. apply omap_app. Qed.

Lemma requests_progress : ∀ l, requests
  (if progressCallback then [Progress l] else []) = [].
Proof. by destruct progressCallback. Qed.

Lemma accept_requests st p size :
  requests (trace (accept st p size)) = requests (trace st).
Proof.
  destruct p as [[|r recs]|]; simpl; try done.
  by rewrite requests_app, requests_progress, app_nil_r.
Qed.

Lemma accept_nonempty st recs size :
  recs ≠ [] ->
  offset (accept st (Some recs) size) = offset st + size ∧
  moreData (accept st (Some recs) size) = moreData st ∧
  issued (accept st (Some recs) size) = issued st ∧
  allData (accept st (Some recs) size) =
    allData st ++ (sanitized <$> recs).
Proof.
  intros Hne. destruct recs as [|r recs]; [done|]. simpl.
  repeat split. f_equal. unfold clean_records. f_equal.
  - apply clean_record_fmap.
  - apply list_fmap_ext. intros _ x _. apply clean_record_fmap.
Qed.

(** Every turn of the loop opens with a request at the page size the
    caller gave, at the current offset. *)
Lemma iteration_first_request st :
  ∃ rest, requests (trace (iteration st)) =
          requests (trace st) ++ (batchSize, offset st) :: rest.
Proof.
  unfold Pull.iteration, request. simpl.
  destruct (delivered (srv (issued st) batchSize (offset st))) as [p|].
  - exists []. rewrite accept_requests. simpl. by rewrite requests_app.
  - destruct (10 <=? batchSize / 2); simpl.
    + destruct (delivered _) as [p|]; simpl; eexists;
        rewrite ?accept_requests; simpl; rewrite !requests_app; simpl;
        by rewrite <- app_assoc.
    + exists []. by rewrite requests_app.
Qed.

Lemma iteration_delivered st recs :
  delivered (srv (issued st) batchSize (offset st)) = Some (Some recs) ->
  recs ≠ [] ->
  allData (iteration st) = allData st ++ (sanitized <$> recs).
Proof.
  intros Hfirst Hne. unfold Pull.iteration, request. rewrite Hfirst.
  by destruct (accept_nonempty
    {| offset := offset st; allData := allData st; moreData := moreData st;
       issued := S (issued st);
       trace := trace st ++ [Request batchSize (offset st)] |}
    recs batchSize Hne) as (_ & _ & _ & ->).
Qed.

(** The state after a failed first request and a retry that delivered the
    page [p]. *)
Lemma iteration_retried st p :
  delivered (srv (issued st) batchSize (offset st)) = None ->
  10 <= batchSize / 2 ->
  delivered (srv (S (issued st)) (batchSize / 2) (offset st)) = Some p ->
  iteration st =
  accept
    {| offset := offset st; allData := allData st; moreData := moreData st;
       issued := S (S (issued st));
       trace := (trace st ++ [Request batchSize (offset st)]) ++
                [Request (batchSize / 2) (offset st)] |}
    p (batchSize / 2).
Proof.
  intros Hfirst Hhalf Hretry. unfold Pull.iteration, request. rewrite Hfirst.
  simpl. destruct (Z.leb_spec 10 (batchSize / 2)); [|lia]. by rewrite Hretry.
Qed.

Lemma iteration_retry_failed st :
  delivered (srv (issued st) batchSize (offset st)) = None ->
  10 <= batchSize / 2 ->
  delivered (srv (S (issued st)) (batchSize / 2) (offset st)) = None ->
  iteration st =
  {| offset := offset st + batchSize / 2; allData := allData st;
     moreData := moreData st; issued := S (S (issued st));
     trace := (trace st ++ [Request batchSize (offset st)]) ++
              [Request (batchSize / 2) (offset st)] |}.
Proof.
  intros Hfirst Hhalf Hretry. unfold Pull.iteration, request. rewrite Hfirst.
  simpl. destruct (Z.leb_spec 10 (batchSize / 2)); [|lia]. by rewrite Hretry.
Qed.

Lemma iteration_no_retry st :
  delivered (srv (issued st) batchSize (offset st)) = None ->
  batchSize / 2 < 10 ->
  iteration st =
  {| offset := offset st + batchSize; allData := allData st;
     moreData := moreData st; issued := S (issued st);
     trace := trace st ++ [Request batchSize (offset st)] |}.
Proof.
  intros Hfirst Hhalf. unfold Pull.iteration, request. rewrite Hfirst.
  simpl. by destruct (Z.leb_spec 10 (batchSize / 2)); [lia|].
Qed.

End Iteration.

(** C1, amended. In [pullData] every string value of every fetched record
    loses its first '[' and its first ']' and nothing else: the two [replace]
    calls do what one pass dropping the first of each does, "[ABC]" becomes
    "ABC" and "[A][B]" becomes "A[B]"; values that are not strings stay as
    they are; and the records a page adds to the result, on the first request
    as on the retry, are the sanitized records of that page. *)
Theorem bracket_sanitization :
  clean_string "[ABC]" = "ABC" ∧
  clean_string "[A][B]" = "A[B]" ∧
  (∀ s, clean_string s = first_brackets_removed s) ∧
  (∀ (r : record) k,
     clean_record r !! k =
     match r !! k with
     | Some (JString s) => Some (JString (first_brackets_removed s))
     | other => other
     end) ∧
  (∀ srv batchSize progressCallback st recs,
     delivered (srv (issued st) batchSize (offset st)) = Some (Some recs) ->
     recs ≠ [] ->
     allData (iteration srv batchSize progressCallback st) =
     allData st ++ (clean_record <$> recs)) ∧
  (∀ srv batchSize progressCallback st recs,
     delivered (srv (issued st) batchSize (offset st)) = None ->
     10 <= batchSize / 2 ->
     delivered (srv (S (issued st)) (batchSize / 2) (offset st))
       = Some (Some recs) ->
     recs ≠ [] ->
     allData (iteration srv batchSize progressCallback st) =
     allData st ++ (clean_record <$> recs)).
Proof.
  assert (Hpass : ∀ s, clean_string s = first_brackets_removed s).
  { intros s. unfold first_brackets_removed.
    by rewrite strip_first_replace. }
  assert (Hrec : ∀ recs : list record, sanitized <$> recs = clean_record <$> recs).
  { intros recs. apply list_fmap_ext. intros _ r _.
    by rewrite clean_record_fmap. }
  split; [reflexivity|]. split; [reflexivity|]. split; [done|].
  split; [|split].
  - intros r k. rewrite clean_record_fmap. unfold sanitized.
    rewrite lookup_fmap. destruct (r !! k) as [v|]; [|done].
    destruct v; simpl; try done. by rewrite Hpass.
  - intros srv b cb st recs Hfirst Hne.
    by rewrite (iteration_delivered srv b cb st recs), Hrec.
  - intros srv b cb st recs Hfirst Hhalf Hretry Hne.
    rewrite (iteration_retried srv b cb st (Some recs)) by done.
    destruct (accept_nonempty cb
      {| offset := offset st; allData := allData st; moreData := moreData st;
         issued := S (S (issued st));
         trace := (trace st ++ [Request b (offset st)]) ++
                  [Request (b / 2) (offset st)] |}
      recs (b / 2) Hne) as (_ & _ & _ & ->).
    by rewrite Hrec.
Qed.

Lemma bracket_sanitization_witness :
  let r : record := {["name__v" := JString "[A][B]"]} in
  let first_try : server := fun n _ _ =>
    match n with O => Response 200 (Some [r]) | _ => Response 200 (Some []) end in
  let second_try : server := fun n _ _ =>
    match n with
    | O => Rejected "Failed to fetch"
    | S O => Response 200 (Some [r])
    | _ => Response 200 (Some [])
    end in
  allData (iteration first_try 100 true initial) = [] ++ (clean_record <$> [r]) ∧
  allData (iteration second_try 100 true initial) = [] ++ (clean_record <$> [r]).
Proof.
  intros r first_try second_try.
  destruct bracket_sanitization as (_ & _ & _ & _ & Hfirst & Hsecond).
  split.
  - apply (Hfirst first_try 100 true initial [r]); [reflexivity | discriminate].
  - apply (Hsecond second_try 100 true initial [r]);
      [reflexivity | discriminate | reflexivity | discriminate].
Defined.

(** C1 as first written: the value "[A][B]" does not become "A][B"; the
    first ']' is the one after the A, so the code leaves "A[B]". *)
Lemma bracket_example_counterexample :
  clean_string "[A][B]" = "A[B]" ∧ clean_string "[A][B]" ≠ "A][B".
Proof. split; [reflexivity | discriminate]. Qed.

(** C3. When the request of a page fails: if half the page size is at least
    10, exactly one retry follows, at the halved size and the same offset; a
    retry that brings records moves the offset by the halved size and the
    next request is again at the original page size; a retry that fails too
    moves the offset by the halved size; a retry that brings an empty page
    ends the pagination; if half the page size is below 10 there is no retry
    and the offset moves by the page size.  For a positive page size the
    offset has strictly grown whenever the loop goes on. *)
Theorem failed_page_retry srv batchSize progressCallback st :
  delivered (srv (issued st) batchSize (offset st)) = None ->
  let st' := iteration srv batchSize progressCallback st in
  let retry := delivered (srv (S (issued st)) (batchSize / 2) (offset st)) in
  (10 <= batchSize / 2 ->
     requests (trace st') =
       requests (trace st) ++
       [(batchSize, offset st); (batchSize / 2, offset st)] ∧
     (∀ recs, retry = Some (Some recs) -> recs ≠ [] ->
        offset st' = offset st + batchSize / 2 ∧
        moreData st' = moreData st ∧
        ∃ rest,
          requests (trace (iteration srv batchSize progressCallback st')) =
          requests (trace st') ++
          (batchSize, offset st + batchSize / 2) :: rest) ∧
     (retry = None ->
        offset st' = offset st + batchSize / 2 ∧
        moreData st' = moreData st ∧
        allData st' = allData st) ∧
     (retry = Some None ∨ retry = Some (Some []) ->
        moreData st' = false ∧ offset st' = offset st)) ∧
  (batchSize / 2 < 10 ->
     requests (trace st') = requests (trace st) ++ [(batchSize, offset st)] ∧
     offset st' = offset st + batchSize ∧
     moreData st' = moreData st ∧
     allData st' = allData st) ∧
  (0 < batchSize -> moreData st' = true -> offset st < offset st').
Proof.
  intros Hfirst st' retry. split; [|split].
  - intros Hhalf. split; [|split; [|split]].
    + subst st'. destruct retry as [p|] eqn:Hretry.
      * rewrite (iteration_retried srv batchSize progressCallback st p) by done.
        rewrite accept_requests. simpl. rewrite !requests_app. simpl.
        by rewrite <- app_assoc.
      * rewrite iteration_retry_failed by done. simpl.
        rewrite !requests_app. simpl. by rewrite <- app_assoc.
    + intros recs Hretry Hne.
      assert (Hoff : offset st' = offset st + batchSize / 2
                     ∧ moreData st' = moreData st).
      { subst st'.
        rewrite (iteration_retried srv batchSize progressCallback st (Some recs))
          by done.
        by destruct (accept_nonempty progressCallback
          {| offset := offset st; allData := allData st;
             moreData := moreData st; issued := S (S (issued st));
             trace := (trace st ++ [Request batchSize (offset st)]) ++
                      [Request (batchSize / 2) (offset st)] |}
          recs (batchSize / 2) Hne) as (-> & -> & _). }
      destruct Hoff as [Hoff Hmore]. split; [done|]. split; [done|].
      destruct (iteration_first_request srv batchSize progressCallback st')
        as [rest Hrest].
      exists rest. by rewrite Hrest, Hoff.
    + intros Hretry. subst st'. by rewrite iteration_retry_failed.
    + intros Hretry. subst st'.
      destruct Hretry as [Hretry|Hretry];
        by rewrite (iteration_retried srv batchSize progressCallback st _ Hfirst
                      Hhalf Hretry).
  - intros Hhalf. subst st'. rewrite iteration_no_retry by done. simpl.
    by rewrite requests_app.
  - intros Hpos Hmore. subst st'.
    destruct (Z.le_gt_cases 10 (batchSize / 2)) as [Hhalf|Hhalf].
    + destruct retry as [p|] eqn:Hretry.
      * rewrite (iteration_retried srv batchSize progressCallback st p) in *
          by done.
        destruct p as [[|r recs]|]; simpl in *; try done. lia.
      * rewrite iteration_retry_failed by done. simpl. lia.
    + rewrite iteration_no_retry by done. simpl. lia.
Qed.

Lemma failed_page_retry_witness :
  let r : record := {["name__v" := JString "x"]} in
  let recovers : server := fun n _ _ =>
    match n with
    | O => Rejected "Failed to fetch"
    | S O => Response 200 (Some [r])
    | _ => Response 200 (Some [])
    end in
  let fails_twice : server := fun n _ _ =>
    match n with
    | O | S O => Response 500 None
    | _ => Response 200 (Some [])
    end in
  (requests (trace (iteration recovers 100 true initial)) = [(100, 0); (50, 0)] ∧
   offset (iteration recovers 100 true initial) = 50 ∧
   ∃ rest, requests (trace (iteration recovers 100 true
                             (iteration recovers 100 true initial))) =
           requests (trace (iteration recovers 100 true initial)) ++
           (100, 50) :: rest) ∧
  offset (iteration fails_twice 100 true initial) = 50 ∧
  (requests (trace (iteration fails_twice 15 true initial)) = [(15, 0)] ∧
   offset (iteration fails_twice 15 true initial) = 15) ∧
  0 < offset (iteration fails_twice 15 true initial).
Proof.
  intros r recovers fails_twice.
  destruct (failed_page_retry recovers 100 true initial eq_refl)
    as ((Hreq & Hok & _ & _) & _ & _); [apply Z.leb_le; reflexivity|].
  destruct (Hok [r] eq_refl) as (Hoff & _ & Hnext); [discriminate|].
  destruct (failed_page_retry fails_twice 100 true initial eq_refl)
    as ((_ & _ & Hfail & _) & _ & _); [apply Z.leb_le; reflexivity|].
  destruct (Hfail eq_refl) as (Hoff2 & _ & _).
  destruct (failed_page_retry fails_twice 15 true initial eq_refl)
    as (_ & Hsmall & Hgrow).
  destruct Hsmall as (Hreq3 & Hoff3 & _); [apply Z.ltb_lt; reflexivity|].
  split; [split; [exact Hreq | split; [exact Hoff | exact Hnext]]|].
  split; [exact Hoff2|]. split; [split; [exact Hreq3 | exact Hoff3]|].
  apply Hgrow; [apply Z.ltb_lt; reflexivity | reflexivity].
Defined.

End PullSpec.

(** ** PushEngine *)

Module PushSpec.
Import Push.

Section Partition.

Context {A : Type}.
Implicit Types (data : list A) (batches : list (list A)).

Lemma prepare_unfold fuel data size i batches :
  prepare A fuel data size i batches =
  if i <? Z.of_nat (length data) then
    match fuel with
    | O => None
    | S fuel' =>
        prepare A fuel' data size (i + size)
          (batches ++ [slice data i (i + size)])
    end
  else Some batches.
Proof. by destruct fuel. Qed.

(** A slice of [size] consecutive indices never holds more than [size]
    elements, wherever it starts. *)
Lemma slice_length_le data i size :
  0 <= size -> Z.of_nat (length (slice data i (i + size))) <= size.
Proof.
  intros Hsize. unfold slice. rewrite length_take, length_drop.
  destruct (Z.ltb_spec i 0), (Z.ltb_spec (i + size) 0); lia.
Qed.

Lemma take_min_length (l : list A) n : take (n `min` length l) l = take n l.
Proof.
  destruct (decide (n ≤ length l)%nat) as [Hle|Hgt].
  - by rewrite Nat.min_l.
  - rewrite Nat.min_r by lia. by rewrite !take_ge by lia.
Qed.

Lemma slice_stretch data n k :
  slice data (Z.of_nat (k * n)) (Z.of_nat (k * n) + Z.of_nat n) =
  stretch n data k.
Proof.
  unfold slice, stretch.
  destruct (Z.ltb_spec (Z.of_nat (k * n)) 0); [lia|].
  destruct (Z.ltb_spec (Z.of_nat (k * n) + Z.of_nat n) 0); [lia|].
  destruct (decide (k * n ≤ length data)%nat) as [Hin|Hout].
  - replace (Z.to_nat (Z.of_nat (k * n) `min` Z.of_nat (length data)))
      with (k * n)%nat by lia.
    rewrite <- (take_min_length (drop (k * n) data) n).
    f_equal. rewrite length_drop. lia.
  - rewrite !(drop_ge data) by lia. by rewrite !take_nil.
Qed.

Lemma prepare_within fuel :
  ∀ data size i batches result,
    0 <= size ->
    prepare A fuel data size i batches = Some result ->
    Forall (fun b => Z.of_nat (length b) <= size) batches ->
    Forall (fun b => Z.of_nat (length b) <= size) result.
Proof.
  induction fuel as [|fuel IH]; intros data size i batches result Hsize;
    rewrite prepare_unfold; destruct (i <? Z.of_nat (length data));
    try discriminate; try (by intros [= <-]).
  intros Hrun Hall. apply (IH _ _ _ _ _ Hsize Hrun).
  apply Forall_app. split; [done|].
  by apply Forall_singleton, slice_length_le.
Qed.

(** With a step that is not positive the index never leaves the array: the
    loop does not end. *)
Lemma prepare_stuck fuel :
  ∀ data size i batches,
    size <= 0 -> i <= 0 -> data ≠ [] ->
    prepare A fuel data size i batches = None.
Proof.
  induction fuel as [|fuel IH]; intros data size i batches Hsize Hi Hdata;
    rewrite prepare_unfold;
    (destruct (Z.ltb_spec i (Z.of_nat (length data))) as [Hin|Hout];
     [|destruct data; [done | simpl in Hout; lia]]).
  - done.
  - apply IH; [done | lia | done].
Qed.

Lemma prepare_bounded fuel data size result :
  prepare A fuel data size 0 [] = Some result ->
  Forall (fun b => Z.of_nat (length b) <= Z.max size 0) result.
Proof.
  intros Hrun. destruct (Z.le_gt_cases size 0) as [Hle|Hgt].
  - destruct data as [|x data].
    + rewrite prepare_unfold in Hrun. simpl in Hrun. by injection Hrun as <-.
    + by rewrite prepare_stuck in Hrun.
  - rewrite Z.max_l by lia.
    by apply (prepare_within fuel data size 0 [] result); [lia | |].
Qed.

Section Sized.

Variable data : list A.
Variable n : nat.
Hypothesis n_positive : (0 < n)%nat.

Local Abbreviation M := (length data).

Local Abbreviation count := (batch_count n data).

Lemma count_spec :
  Z.of_nat count = ceil_div (Z.of_nat M) (Z.of_nat n) ∧
  (M ≤ count * n)%nat ∧
  ∀ k, (k < count)%nat ↔ (k * n < M)%nat.
Proof.
  unfold batch_count, ceil_div.
  set (a := Z.of_nat M + Z.of_nat n - 1).
  assert (Hq : 0 <= a / Z.of_nat n) by (apply Z.div_pos; lia).
  pose proof (Z.div_mod a (Z.of_nat n) ltac:(lia)) as Hdiv.
  pose proof (Z.mod_pos_bound a (Z.of_nat n) ltac:(lia)) as Hmod.
  set (q := a / Z.of_nat n) in *. set (r := a mod Z.of_nat n) in *.
  split; [lia|]. split; [nia|].
  intros k. split; intros Hk; nia.
Qed.

Lemma concat_stretches k :
  concat (stretch n data <$> seq 0 k) = take (k * n) data.
Proof.
  induction k as [|k IH]; [done|].
  rewrite seq_S, fmap_app, concat_app, IH. simpl.
  rewrite app_nil_r. unfold stretch. rewrite take_take_drop.
  f_equal. lia.
Qed.

Lemma prepare_from remaining :
  ∀ fuel k batches,
    (k + remaining = count)%nat ->
    (remaining ≤ fuel)%nat ->
    prepare A fuel data (Z.of_nat n) (Z.of_nat (k * n)) batches =
    Some (batches ++ (stretch n data <$> seq k remaining)).
Proof.
  destruct count_spec as (_ & _ & Hlt).
  induction remaining as [|remaining IH]; intros fuel k batches Hk Hfuel;
    rewrite prepare_unfold.
  - destruct (Z.ltb_spec (Z.of_nat (k * n)) (Z.of_nat M)) as [Hin|Hout].
    + assert (k < count)%nat by (apply Hlt; lia). lia.
    + simpl. by rewrite app_nil_r.
  - destruct (Z.ltb_spec (Z.of_nat (k * n)) (Z.of_nat M)) as [Hin|Hout].
    + destruct fuel as [|fuel]; [lia|].
      replace (Z.of_nat (k * n) + Z.of_nat n) with (Z.of_nat (S k * n)) by lia.
      rewrite IH by lia.
      replace (Z.of_nat (S k * n)) with (Z.of_nat (k * n) + Z.of_nat n) by lia.
      rewrite slice_stretch. simpl. by rewrite <- app_assoc.
    + assert (¬ (k < count)%nat) by (rewrite Hlt; lia). lia.
Qed.

Lemma prepare_stretches fuel :
  (M ≤ fuel)%nat ->
  prepare A fuel data (Z.of_nat n) 0 [] = Some (stretch n data <$> seq 0 count).
Proof.
  intros Hfuel. destruct count_spec as (_ & Hcover & Hlt).
  assert (count ≤ M)%nat.
  { destruct count as [|c] eqn:Hc; [lia|].
    assert (c * n < M)%nat by (apply Hlt; lia). nia. }
  change 0 with (Z.of_nat (0 * n)).
  by rewrite (prepare_from count) by lia.
Qed.

Lemma stretch_length j :
  (S j < count -> length (stretch n data j) = n)%nat ∧
  (S j = count ->
   Z.of_nat (length (stretch n data j)) =
   if Z.of_nat M mod Z.of_nat n =? 0 then Z.of_nat n
   else Z.of_nat M mod Z.of_nat n).
Proof.
  destruct count_spec as (_ & Hcover & Hlt).
  unfold stretch. rewrite length_take, length_drop. split.
  - intros Hj. assert (S j * n < M)%nat by (apply Hlt; lia). lia.
  - intros Hj. assert (j * n < M)%nat by (apply Hlt; lia).
    assert (Hrest : (M - j * n ≤ n)%nat) by nia.
    rewrite Nat.min_r by done.
    pose proof (Z.mod_pos_bound (Z.of_nat M) (Z.of_nat n) ltac:(lia)) as Hmod.
    destruct (Z.eqb_spec (Z.of_nat M mod Z.of_nat n) 0) as [Hzero|Hnz].
    + apply Z.mod_divide in Hzero as [c Hc]; [|lia].
      assert (c = Z.of_nat j + 1) by nia. nia.
    + apply (Z.mod_unique_pos _ _ (Z.of_nat j)); [|lia].
      split; [lia|]. destruct (decide (M - j * n = n)%nat) as [Hfull|]; [|lia].
      exfalso. apply Hnz. apply Z.mod_divide; [lia|].
      exists (Z.of_nat j + 1). lia.
Qed.

End Sized.

End Partition.

Section Run.

Context {A : Type}.
Variable srv : nat -> write A -> written.
Variable apiUrl objectName operation : string.
Variable progressCallback : bool.

Local Abbreviation process :=
  (process A srv apiUrl objectName operation progressCallback).
Local Abbreviation write_of := (write_of A apiUrl objectName operation).
Local Abbreviation pushData :=
  (pushData A srv apiUrl objectName operation progressCallback).

Local Abbreviation batch_events :=
  (batch_events A apiUrl objectName operation progressCallback).

Lemma record_outcome_spec res i w :
  logs (record_outcome res i w) = logs res ++ [pushed_entry i w] ∧
  total (record_outcome res i w) = total res ∧
  success (record_outcome res i w) + failures (record_outcome res i w) =
    success res + failures res + 1.
Proof.
  destruct w as [m stack|code text]; simpl.
  - repeat split. lia.
  - destruct (response_ok code); simpl; repeat split; lia.
Qed.

Lemma process_trace sessionId count remaining :
  ∀ i res tr,
    (process sessionId count remaining i res tr).2 =
    tr ++ concat (imap (fun j => batch_events sessionId count (i + j)) remaining).
Proof.
  induction remaining as [|b rest IH]; intros i res tr.
  - simpl. by rewrite app_nil_r.
  - cbn [Push.process imap concat].
    rewrite IH, Nat.add_0_r, <- app_assoc. do 3 f_equal.
    apply imap_ext. intros j x _. simpl. f_equal. lia.
Qed.

Lemma process_logs sessionId count remaining :
  ∀ i res tr,
    logs (process sessionId count remaining i res tr).1 =
    logs res ++
    imap (fun j b => pushed_entry (i + j) (srv (i + j) (write_of sessionId b)))
         remaining.
Proof.
  induction remaining as [|b rest IH]; intros i res tr; simpl.
  - by rewrite app_nil_r.
  - rewrite IH. destruct (record_outcome_spec res i (srv i (write_of sessionId b)))
      as (-> & _ & _).
    rewrite <- app_assoc, Nat.add_0_r. simpl. do 2 f_equal. 
    apply imap_ext. intros j x _. simpl. by replace (S (i + j))%nat with (i + S j)%nat by lia.
Qed.

Lemma process_counters sessionId count remaining :
  ∀ i res tr,
    total (process sessionId count remaining i res tr).1 = total res ∧
    success (process sessionId count remaining i res tr).1 +
    failures (process sessionId count remaining i res tr).1 =
      success res + failures res + Z.of_nat (length remaining).
Proof.
  induction remaining as [|b rest IH]; intros i res tr.
  - simpl. split; [done | lia].
  - cbn [Push.process]. 
    destruct (IH (S i) (record_outcome res i (srv i (write_of sessionId b)))
      (tr ++ batch_events sessionId count i b)) as [-> ->].
    destruct (record_outcome_spec res i (srv i (write_of sessionId b)))
      as (_ & -> & ->).
    split; [done | simpl length; lia].
Qed.

Lemma submitted_app (tr1 tr2 : list (event A)) :
  submitted (tr1 ++ tr2) = submitted tr1 ++ submitted tr2.
Proof. apply omap_app. Qed.

Lemma submitted_batch_events sessionId count batches :
  ∀ i,
    submitted (concat (imap (fun j => batch_events sessionId count (i + j)) batches)) =
    write_of sessionId <$> batches.
Proof.
  induction batches as [|b rest IH]; intros i; [done|].
  rewrite fmap_cons, <- (IH (S i)). cbn [imap concat].
  rewrite submitted_app. unfold batch_events at 1.
  replace (submitted _) with [write_of sessionId b]
    by (by destruct progressCallback).
  simpl. do 3 f_equal. apply imap_ext. intros j x _. simpl.
  by replace (S (i + j))%nat with (i + S j)%nat by lia.
Qed.

Lemma pushData_prepared fuel sessionId data batchSize batches :
  prepare A fuel data (actualBatchSize operation batchSize) 0 [] = Some batches ->
  pushData fuel (SessionId sessionId) data batchSize =
  (Returned
     (process sessionId (Z.of_nat (length batches)) batches 0
        (fresh (Z.of_nat (length batches))) []).1,
   (process sessionId (Z.of_nat (length batches)) batches 0
        (fresh (Z.of_nat (length batches))) []).2).
Proof.
  intros Hprep. unfold Push.pushData. rewrite Hprep. unfold fresh.
  by destruct (process _ _ _ _ _ _).
Qed.

Lemma pushData_returned fuel s data batchSize res tr :
  pushData fuel s data batchSize = (Returned res, tr) ->
  ∃ sessionId batches,
    s = SessionId sessionId ∧
    prepare A fuel data (actualBatchSize operation batchSize) 0 [] = Some batches ∧
    res = (process sessionId (Z.of_nat (length batches)) batches 0
             (fresh (Z.of_nat (length batches))) []).1 ∧
    tr = (process sessionId (Z.of_nat (length batches)) batches 0
             (fresh (Z.of_nat (length batches))) []).2.
Proof.
  destruct s as [sessionId|m]; [|discriminate].
  destruct (prepare A fuel data (actualBatchSize operation batchSize) 0 [])
    as [batches|] eqn:Hprep.
  - rewrite (pushData_prepared _ _ _ _ _ Hprep). intros [= <- <-].
    by exists sessionId, batches.
  - unfold Push.pushData. rewrite Hprep. discriminate.
Qed.

End Run.

Lemma actualBatchSize_positive operation batchSize :
  1 <= batchSize -> 1 <= actualBatchSize operation batchSize.
Proof. unfold actualBatchSize. destruct (String.eqb _ _); lia. Qed.

Lemma actualBatchSize_ceiling operation batchSize :
  actualBatchSize operation batchSize <= ceiling operation.
Proof. unfold actualBatchSize, ceiling. destruct (String.eqb _ _); lia. Qed.

Lemma prepare_sized {A : Type} (data : list A) size fuel :
  1 <= size ->
  (length data ≤ fuel)%nat ->
  prepare A fuel data size 0 [] =
  Some (stretch (Z.to_nat size) data <$>
        seq 0 (batch_count (Z.to_nat size) data)).
Proof.
  intros Hsize Hfuel.
  rewrite <- (prepare_stretches data (Z.to_nat size) ltac:(lia) fuel Hfuel).
  f_equal. lia.
Qed.

(** C2. Whatever batch size is requested, the merge operation runs with a
    batch size of at most 10 and every other operation with a batch size of
    at most 500; and in a run of [pushData] that returns, no write carries
    more records than the ceiling of its operation. *)
Theorem batch_size_clamp :
  ceiling "merge" = 10 ∧ ceiling "insert" = 500 ∧
  ceiling "update" = 500 ∧ ceiling "delete" = 500 ∧
  (∀ operation batchSize,
     actualBatchSize operation batchSize <= ceiling operation ∧
     actualBatchSize operation batchSize <= batchSize ∧
     ceiling operation <= 500) ∧
  (∀ (A : Type) srv apiUrl objectName operation progressCallback fuel s
     (data : list A) batchSize res tr w,
     pushData A srv apiUrl objectName operation progressCallback fuel s data
       batchSize = (Returned res, tr) ->
     w ∈ submitted tr ->
     Z.of_nat (length (body w)) <= ceiling operation).
Proof.
  repeat (split; [reflexivity|]). split.
  - intros operation batchSize. unfold actualBatchSize, ceiling.
    destruct (String.eqb _ _); lia.
  - intros A srv apiUrl objectName operation cb fuel s data batchSize res tr w
      Hrun Hw.
    apply pushData_returned in Hrun as (sid & batches & _ & Hprep & _ & ->).
    rewrite process_trace, app_nil_l in Hw.
    rewrite (submitted_batch_events apiUrl objectName operation cb sid _ batches 0)
      in Hw.
    apply list_elem_of_fmap in Hw as (b & -> & Hb).
    apply prepare_bounded in Hprep.
    rewrite Forall_forall in Hprep. specialize (Hprep b Hb).
    pose proof (actualBatchSize_ceiling operation batchSize).
    assert (0 < ceiling operation)
      by (unfold ceiling; destruct (String.eqb _ _); lia).
    unfold write_of. destruct (target _ _ _). simpl. lia.
Qed.

Lemma batch_size_clamp_witness :
  Forall (fun w => Z.of_nat (length (body w)) <= 10)
    (submitted
       (pushData nat (fun _ _ => WriteResponse 200 "ok") "https://vault"
          "account__v" "merge" true 12 (SessionId "S1")
          [1; 2; 3; 4; 5; 6; 7; 8; 9; 10; 11; 12]%nat 200).2).
Proof.
  apply Forall_forall. intros w Hw.
  destruct batch_size_clamp as (_ & _ & _ & _ & _ & Hrun).
  exact (Hrun nat (fun _ _ => WriteResponse 200 "ok") "https://vault"
           "account__v" "merge" true 12%nat (SessionId "S1")
           [1; 2; 3; 4; 5; 6; 7; 8; 9; 10; 11; 12]%nat 200 _ _ w eq_refl Hw).
Defined.

(** C4. For [M] records and a batch size [N >= 1] the loop that prepares
    the batches ends, and leaves exactly [ceil(M / N)] batches that are the
    consecutive stretches of the records in order: put end to end they give
    the records back, each has [N] records except possibly the last, which
    has [M mod N] records, or [N] when [N] divides [M]. *)
Theorem partition_into_batches {A : Type} (data : list A) (size : Z)
    (fuel : nat) :
  1 <= size ->
  (length data ≤ fuel)%nat ->
  ∃ batches,
    prepare A fuel data size 0 [] = Some batches ∧
    Z.of_nat (length batches) = ceil_div (Z.of_nat (length data)) size ∧
    concat batches = data ∧
    ∀ j b, batches !! j = Some b ->
      b = stretch (Z.to_nat size) data j ∧
      ((S j < length batches)%nat -> Z.of_nat (length b) = size) ∧
      ((S j = length batches)%nat ->
       Z.of_nat (length b) =
       if Z.of_nat (length data) mod size =? 0 then size
       else Z.of_nat (length data) mod size).
Proof.
  intros Hsize Hfuel. set (n := Z.to_nat size).
  assert (Hn : (0 < n)%nat) by lia.
  assert (Hback : Z.of_nat n = size) by lia.
  destruct (count_spec data n Hn) as (Hcount & Hcover & _).
  exists (stretch n data <$> seq 0 (batch_count n data)).
  split; [by apply prepare_sized|].
  rewrite length_fmap, length_seq.
  split; [by rewrite Hcount, Hback|].
  split; [rewrite concat_stretches; [by apply take_ge | done]|].
  intros j b Hb. rewrite list_lookup_fmap in Hb.
  destruct (seq 0 (batch_count n data) !! j) as [j'|] eqn:Hj; [|done].
  apply lookup_seq in Hj as [-> _]. injection Hb as <-. simpl.
  destruct (stretch_length data n Hn j) as [Hfull Hlast].
  rewrite Hback in Hlast. split; [done|]. split; [|done].
  intros Hj. rewrite Hfull by done. done.
Qed.

Lemma partition_into_batches_witness :
  ∃ batches,
    prepare nat 5 [1; 2; 3; 4; 5]%nat 2 0 [] = Some batches ∧
    Z.of_nat (length batches) = 3 ∧
    concat batches = [1; 2; 3; 4; 5]%nat.
Proof.
  destruct (partition_into_batches [1; 2; 3; 4; 5]%nat 2 5)
    as (batches & Hprep & Hlen & Hcat & _).
  - apply Z.leb_le. reflexivity.
  - apply Nat.leb_le. reflexivity.
  - exists batches. split; [exact Hprep|]. split; [exact Hlen | exact Hcat].
Defined.

(** C5. In the result of [pushData], success + failures = total, and total
    is the number of batches that were submitted, which is also the number of
    log entries; and for a batch size of at least 1 [pushData] does return a
    result. *)
Theorem counters_add_up {A : Type} srv apiUrl objectName operation
    progressCallback :
  (∀ fuel s (data : list A) batchSize res tr,
     pushData A srv apiUrl objectName operation progressCallback fuel s data
       batchSize = (Returned res, tr) ->
     success res + failures res = total res ∧
     total res = Z.of_nat (length (submitted tr)) ∧
     total res = Z.of_nat (length (logs res))) ∧
  (∀ sessionId (data : list A) batchSize,
     1 <= batchSize ->
     ∃ res tr,
       pushData A srv apiUrl objectName operation progressCallback
         (length data) (SessionId sessionId) data batchSize = (Returned res, tr)).
Proof.
  split.
  - intros fuel s data batchSize res tr Hrun.
    apply pushData_returned in Hrun as (sid & batches & _ & _ & -> & ->).
    destruct (process_counters srv apiUrl objectName operation progressCallback
                sid (Z.of_nat (length batches)) batches 0
                (fresh (Z.of_nat (length batches))) []) as [-> ->].
    rewrite process_trace, process_logs, app_nil_l.
    rewrite (submitted_batch_events apiUrl objectName operation progressCallback
               sid _ batches 0).
    simpl. rewrite length_fmap, length_imap. lia.
  - intros sid data batchSize Hsize. eexists _, _.
    apply pushData_prepared. apply prepare_sized; [|done].
    by apply actualBatchSize_positive.
Qed.

Lemma counters_add_up_witness :
  let srv : nat -> write nat -> written := fun i _ =>
    match i with
    | O => WriteResponse 200 "ok"
    | S O => WriteResponse 400 "bad request"
    | _ => WriteThrew "Failed to fetch" "TypeError: Failed to fetch"
    end in
  let run :=
    pushData nat srv "https://vault" "account__v" "insert" true 5
      (SessionId "S1") [1; 2; 3; 4; 5]%nat 2 in
  (∃ res tr, run = (Returned res, tr)) ∧
  ∀ res tr, run = (Returned res, tr) -> success res + failures res = total res.
Proof.
  intros srv run.
  destruct (counters_add_up (A:=nat) srv "https://vault" "account__v" "insert"
              true) as [Hsum Hret].
  split.
  - apply (Hret "S1" [1; 2; 3; 4; 5]%nat 2). apply Z.leb_le. reflexivity.
  - intros res tr Hrun.
    exact (proj1 (Hsum 5%nat (SessionId "S1") [1; 2; 3; 4; 5]%nat 2 res tr Hrun)).
Defined.

(** C6. With a batch size of at least 1 and a progress callback, [pushData]
    submits every batch whatever the outcomes of the batches before it: the
    run is, batch after batch in order, the write of the batch followed by
    [onProgress(i + 1, count)]; the log has one entry per batch, in the order
    of submission, and entry [i] carries the batch number [i + 1], the status
    and message, and the response text or the error stack. *)
Theorem every_batch_logged {A : Type} srv apiUrl objectName operation
    sessionId (data : list A) batchSize :
  1 <= batchSize ->
  ∃ batches res,
    prepare A (length data) data (actualBatchSize operation batchSize) 0 []
      = Some batches ∧
    pushData A srv apiUrl objectName operation true (length data)
      (SessionId sessionId) data batchSize =
    (Returned res,
     concat (imap (fun i b =>
       [Submit (write_of A apiUrl objectName operation sessionId b);
        Progress (Z.of_nat i + 1) (Z.of_nat (length batches))]) batches)) ∧
    length (logs res) = length batches ∧
    ∀ i b, batches !! i = Some b ->
      ∃ e, logs res !! i = Some e ∧ batch e = Z.of_nat i + 1 ∧
        match srv i (write_of A apiUrl objectName operation sessionId b) with
        | WriteResponse code responseText =>
            log_status e = Code code ∧ response e = responseText ∧
            message e =
              if response_ok code
              then batch_label i +:+ " processed successfully"
              else batch_label i +:+ " failed: " +:+ number_to_string code
        | WriteThrew error_message error_stack =>
            log_status e = Error ∧ response e = error_stack ∧
            message e = batch_label i +:+ " failed: " +:+ error_message
        end.
Proof.
  intros Hsize.
  pose proof (prepare_sized data (actualBatchSize operation batchSize)
                (length data) (actualBatchSize_positive _ _ Hsize)
                (Nat.le_refl _)) as Hprep.
  set (batches := stretch _ _ <$> _) in Hprep.
  exists batches. eexists. split; [exact Hprep|].
  split; [|split].
  - rewrite (pushData_prepared _ _ _ _ _ _ _ _ _ _ Hprep).
    f_equal. by rewrite process_trace.
  - cbn [fst]. by rewrite process_logs, length_app, length_imap.
  - intros i b Hb. cbn [fst]. rewrite process_logs. cbn [fresh logs app].
    rewrite list_lookup_imap, Hb. cbn [fmap option_fmap option_map Nat.add].
    eexists. split; [done|].
    by destruct (srv i _).
Qed.

Lemma every_batch_logged_witness :
  let srv : nat -> write nat -> written := fun i _ =>
    match i with
    | O => WriteThrew "Failed to fetch" "TypeError: Failed to fetch"
    | _ => WriteResponse 200 "ok"
    end in
  ∃ batches res,
    prepare nat 3 [1; 2; 3]%nat (actualBatchSize "update" 2) 0 [] = Some batches ∧
    pushData nat srv "https://vault" "account__v" "update" true 3
      (SessionId "S1") [1; 2; 3]%nat 2 =
    (Returned res,
     concat (imap (fun i b =>
       [Submit (write_of nat "https://vault" "account__v" "update" "S1" b);
        Progress (Z.of_nat i + 1) (Z.of_nat (length batches))]) batches)) ∧
    length (logs res) = length batches.
Proof.
  intros srv.
  destruct (every_batch_logged srv "https://vault" "account__v" "update" "S1"
              [1; 2; 3]%nat 2) as (batches & res & Hprep & Hrun & Hlen & _).
  - apply Z.leb_le. reflexivity.
  - exists batches, res. split; [exact Hprep|]. split; [exact Hrun | exact Hlen].
Defined.

(** C10. For an empty array of records [pushData] returns, for any
    operation and any requested batch size, the result with total = 0,
    success = 0, failures = 0 and an empty log, and its run holds no write
    and no call of the progress callback. *)
Theorem empty_push {A : Type} srv apiUrl objectName operation progressCallback
    fuel sessionId batchSize :
  pushData A srv apiUrl objectName operation progressCallback fuel
    (SessionId sessionId) [] batchSize =
  (Returned {| total := 0; success := 0; failures := 0; logs := [] |}, []).
Proof. unfold pushData. by rewrite prepare_unfold. Qed.

End PushSpec.

(** ** MetadataCollector *)

Module MetadataSpec.
Import Metadata.

Section Run.

Variable srv : nat -> string -> fetched field_listing.
Variable progressCallback : bool.

Local Abbreviation collect := (collect srv progressCallback).

Lemma collect_spec totalObjects remaining :
  ∀ i results tr,
    collect totalObjects remaining i results tr =
    (results ++
       concat (imap (fun j o => contribution o (srv (i + j) o)) remaining),
     tr ++
       concat (imap (fun j o => ListFields o ::
                 (if progressCallback
                  then [Progress (Z.of_nat (i + j) + 1) totalObjects]
                  else [])) remaining)).
Proof.
  induction remaining as [|o rest IH]; intros i results tr.
  - simpl. by rewrite !app_nil_r.
  - cbn [Metadata.collect imap concat]. rewrite IH, Nat.add_0_r.
    rewrite <- !app_assoc. f_equal.
    + do 3 f_equal. apply imap_ext. intros j x _. simpl.
      by replace (S (i + j))%nat with (i + S j)%nat by lia.
    + f_equal. simpl. do 3 f_equal. apply imap_ext. intros j x _. simpl.
      by replace (S (i + j))%nat with (i + S j)%nat by lia.
Qed.

Lemma exportMetadata_listed code names sessionId :
  response_ok code = true ->
  exportMetadata (Response code names) srv progressCallback
    (SessionId sessionId) =
  (Returned (concat (imap (fun j o => contribution o (srv j o)) (sort names))),
   ListObjects ::
     concat (imap (fun j o => ListFields o ::
               (if progressCallback
                then [Progress (Z.of_nat j + 1)
                        (Z.of_nat (length (sort names)))]
                else [])) (sort names))).
Proof.
  intros Hok. unfold exportMetadata. rewrite Hok, collect_spec. done.
Qed.

End Run.

Lemma progress_calls_app tr1 tr2 :
  progress_calls (tr1 ++ tr2) = progress_calls tr1 ++ progress_calls tr2.
Proof. apply omap_app. Qed.

Lemma progress_calls_collect totalObjects objects :
  ∀ i,
    progress_calls
      (concat (imap (fun j o =>
         [ListFields o; Progress (Z.of_nat (i + j) + 1) totalObjects]) objects)) =
    (fun j => (Z.of_nat j + 1, totalObjects)) <$> seq i (length objects).
Proof.
  induction objects as [|o rest IH]; intros i; [done|].
  cbn [imap concat length seq fmap list_fmap].
  rewrite progress_calls_app, Nat.add_0_r. simpl. f_equal.
  rewrite <- IH. do 2 f_equal. apply imap_ext. intros j x _. simpl.
  by replace (S (i + j))%nat with (i + S j)%nat by lia.
Qed.

Lemma contribution_failed objectName r :
  fetch_failed r -> contribution objectName r = [].
Proof. destruct r as [m|code body]; simpl; [done|]. by intros ->. Qed.

Lemma sort_A_B : sort ["A"; "B"] = ["A"; "B"].
Proof. reflexivity. Qed.

(** C9. When the objects were listed, [exportMetadata] returns, object
    after object in sorted order, what each object contributes, and an object
    whose field fetch failed contributes nothing; the progress callback is
    called once per object, with (1, n), (2, n), ..., (n, n), whatever the
    fetches gave.  For the objects A and B where the fetch of B fails, the
    result is the pairs of A and the last progress call is (2, 2). *)
Theorem failed_object_is_skipped :
  (∀ srv code names sessionId,
     response_ok code = true ->
     ∃ tr,
       exportMetadata (Response code names) srv true (SessionId sessionId) =
       (Returned (concat (imap (fun i o => contribution o (srv i o))
                            (sort names))), tr) ∧
       progress_calls tr =
       (fun i => (Z.of_nat i + 1, Z.of_nat (length (sort names)))) <$>
       seq 0 (length (sort names))) ∧
  (∀ objectName r, fetch_failed r -> contribution objectName r = []) ∧
  (∀ srv fields sessionId,
     srv 0%nat "A" = Response 200 (Some fields) ->
     fetch_failed (srv 1%nat "B") ->
     ∃ tr,
       exportMetadata (Response 200 ["A"; "B"]) srv true (SessionId sessionId) =
       (Returned (mkPair "A" <$> sort fields), tr) ∧
       last (progress_calls tr) = Some (2, 2)).
Proof.
  split; [|split].
  - intros srv code names sid Hok. eexists. split.
    + by apply exportMetadata_listed.
    + change (ListObjects :: ?l) with ([ListObjects] ++ l).
      rewrite progress_calls_app.
      by rewrite (progress_calls_collect _ (sort names) 0).
  - apply contribution_failed.
  - intros srv fields sid HA HB. eexists. split.
    + rewrite exportMetadata_listed by done. rewrite sort_A_B.
      cbn [imap concat compose]. rewrite HA, (contribution_failed "B" _ HB).
      simpl. by rewrite !app_nil_r.
    + done.
Qed.

Lemma failed_object_is_skipped_witness :
  let srv : nat -> string -> fetched field_listing := fun i _ =>
    match i with
    | O => Response 200 (Some ["name__v"; "id"])
    | _ => Response 500 None
    end in
  (∃ tr,
     exportMetadata (Response 200 ["B"; "A"]) srv true (SessionId "S1") =
     (Returned (concat (imap (fun i o => contribution o (srv i o))
                          (sort ["B"; "A"]))), tr) ∧
     progress_calls tr =
     (fun i => (Z.of_nat i + 1, Z.of_nat (length (sort ["B"; "A"])))) <$>
     seq 0 (length (sort ["B"; "A"]))) ∧
  contribution "B" (srv 1%nat "B") = [] ∧
  ∃ tr,
    exportMetadata (Response 200 ["A"; "B"]) srv true (SessionId "S1") =
    (Returned (mkPair "A" <$> sort ["name__v"; "id"]), tr) ∧
    last (progress_calls tr) = Some (2, 2).
Proof.
  intros srv. destruct failed_object_is_skipped as (Hall & Hskip & Hexample).
  split; [|split].
  - apply (Hall srv 200 ["B"; "A"] "S1"). reflexivity.
  - apply Hskip. reflexivity.
  - apply (Hexample srv ["name__v"; "id"] "S1"); reflexivity.
Defined.

End MetadataSpec.

(** ** ColumnMapper *)

Module MapperSpec.
Import Mapper.

Lemma assign_lookup {A : Type} key (v : A) (obj : gmap string A) c :
  assign key v obj !! c =
  if decide (c = key) then
    if decide (key = "__proto__") then obj !! c else Some v
  else obj !! c.
Proof.
  unfold assign. destruct (String.eqb_spec key "__proto__") as [->|Hne].
  - by destruct (decide (c = "__proto__")).
  - rewrite (decide_False (P := key = "__proto__")) by done.
    destruct (decide (c = key)) as [->|Hc].
    + by rewrite lookup_insert_eq.
    + by rewrite lookup_insert_ne.
Qed.

Lemma proto_inherited : "__proto__" ∈ Object_prototype.
Proof. apply (bool_decide_unpack _). reflexivity. Qed.

Lemma lower_fold (L : lowering) fields :
  ∀ (m : gmap string string) key,
    match foldl (fun m field => assign (L field) field m) m fields !! key with
    | Some field =>
        (field ∈ fields ∧ L field = key ∧ key ≠ "__proto__") ∨
        m !! key = Some field
    | None =>
        m !! key = None ∧
        (key ≠ "__proto__" -> ∀ field, field ∈ fields -> L field ≠ key)
    end.
Proof.
  induction fields as [|f rest IH]; intros m key; cbn [foldl].
  - destruct (m !! key); [by right|]. split; [done|].
    intros _ field Hin. by apply elem_of_nil in Hin.
  - specialize (IH (assign (L f) f m) key). rewrite assign_lookup in IH.
    destruct (foldl _ _ rest !! key) as [field|].
    + destruct IH as [(Hin & Hlow & Hkey)|Hm].
      * left. split; [by right | done].
      * destruct (decide (key = L f)) as [->|Hne]; [|by right].
        destruct (decide (L f = "__proto__")) as [Hp|Hp]; [by right|].
        injection Hm as <-. left. split; [by left | done].
    + destruct IH as [Hm Hrest].
      destruct (decide (key = L f)) as [->|Hne].
      * destruct (decide (L f = "__proto__")) as [Hp|Hp]; [|done].
        split; [done|]. by intros Hkey.
      * split; [done|]. intros Hkey field [->|Hin]%elem_of_cons; [done|].
        by apply Hrest.
Qed.

(** A truthy lookup under a key that does not fall through to an inherited
    member is a remote field that lowers to the key. *)
Lemma truthy_Some (L : lowering) fields key v :
  truthy (vaultFieldsLower L fields) key = Some v ->
  (key ∈ Object_prototype -> own_key L fields key) ->
  ∃ field, v = Text field ∧ field ∈ fields ∧ L field = key.
Proof.
  unfold truthy, read, vaultFieldsLower. intros Hv Hkey.
  pose proof (lower_fold L fields ∅ key) as Hfold.
  destruct (foldl _ _ fields !! key) as [field|].
  - destruct Hfold as [(Hin & Hlow & _)|Hempty];
      [|by rewrite lookup_empty in Hempty].
    exists field. by destruct field; simplify_eq.
  - exfalso. case_bool_decide as Hname; [|discriminate].
    destruct (Hkey Hname) as [Hproto (field & Hin & Hlow)%Exists_exists].
    destruct Hfold as [_ Hnone]. by apply (Hnone Hproto field).
Qed.

(** A lookup that is not truthy: the empty text is a remote field and lowers
    to the key, or no remote field lowers to the key. *)
Lemma truthy_None (L : lowering) fields key :
  truthy (vaultFieldsLower L fields) key = None ->
  ("" ∈ fields ∧ L "" = key) ∨ ∀ field, field ∈ fields -> L field ≠ key.
Proof.
  unfold truthy, read, vaultFieldsLower.
  pose proof (lower_fold L fields ∅ key) as Hfold.
  destruct (foldl _ _ fields !! key) as [[|c rest]|]; try discriminate.
  - intros _. left. destruct Hfold as [(Hin & Hlow & _)|Hempty]; [done|].
    by rewrite lookup_empty in Hempty.
  - case_bool_decide as Hkey; [discriminate|]. intros _. right.
    apply Hfold. intros ->. apply Hkey, proto_inherited.
Qed.

Lemma lower_of_empty (L : lowering) : L "" = "".
Proof. by rewrite lower_ascii_text. Qed.

Lemma no_match_of_truthy (L : lowering) fields column name :
  column ∉ fields ->
  (name = "" -> column = "") ->
  truthy (vaultFieldsLower L fields) (L name) = None ->
  no_ci_match L fields name.
Proof.
  intros Hout Hname Hnone field [Hin Hlow].
  apply truthy_None in Hnone as [[Hempty Hkey]|Hnone]; [|by apply (Hnone field)].
  rewrite lower_of_empty in Hkey. symmetry in Hkey.
  apply lower_not_empty in Hkey. specialize (Hname Hkey). by subst column.
Qed.

Lemma replace_empty pat by_ name :
  by_ ≠ "" -> replace pat by_ name = "" -> name = "".
Proof.
  intros Hby. destruct name as [|c rest]; [done|].
  intros Hrep. by apply replace_not_empty in Hrep.
Qed.

(** For a column whose lookups never fall through to an inherited member,
    what the chain of tests chooses is what the four rules, in their order,
    give. *)
Lemma chosen_matched (L : lowering) fields column :
  Forall (fun key => key ∈ Object_prototype -> own_key L fields key)
    (lookup_keys L column) ->
  ∃ r, matched L fields column r ∧
       chosen L fields (vaultFieldsLower L fields) column = Text <$> r.
Proof.
  unfold lookup_keys. rewrite !Forall_cons. intros (Hk1 & Hk2 & Hk3 & _).
  unfold chosen. case_bool_decide as Hexact.
  { exists (Some column). split; [by constructor | done]. }
  destruct (truthy _ (L column)) as [v|] eqn:Hci.
  { apply truthy_Some in Hci as (f & -> & Hf); [|done].
    exists (Some f). split; [by apply insensitive_hit | done]. }
  apply (no_match_of_truthy L fields column column Hexact) in Hci; [|done].
  destruct (truthy _ (L (replace "_" " " column))) as [v|] eqn:Hus.
  { apply truthy_Some in Hus as (f & -> & Hf); [|done].
    exists (Some f). split; [by apply underscore_hit | done]. }
  apply (no_match_of_truthy L fields column _ Hexact) in Hus;
    [|by apply replace_empty].
  destruct (truthy _ (L (replace " " "_" column))) as [v|] eqn:Hsp.
  { apply truthy_Some in Hsp as (f & -> & Hf); [|done].
    exists (Some f). split; [by apply space_hit | done]. }
  apply (no_match_of_truthy L fields column _ Hexact) in Hsp;
    [|by apply replace_empty].
  exists None. split; [by apply no_hit | done].
Qed.

Lemma map_column_chosen (L : lowering) fields lowered st column :
  map_column L fields lowered st column =
  match chosen L fields lowered column with
  | Some field => setColumnMapping column field st
  | None => st
  end.
Proof.
  unfold map_column, chosen. case_bool_decide; [done|].
  destruct (truthy lowered (L column)); [done|].
  destruct (truthy lowered (L (replace "_" " " column))); [done|].
  by destruct (truthy lowered (L (replace " " "_" column))).
Qed.

(** The mapping after the loop over the columns: a column other than
    [__proto__] holds what was chosen for it, everything else is as
    before. *)
Lemma map_columns_lookup (L : lowering) fields lowered cols :
  ∀ st c,
    columnMappings (foldl (map_column L fields lowered) st cols) !! c =
    if decide (c ∈ cols) then
      if decide (c = "__proto__") then columnMappings st !! c
      else match chosen L fields lowered c with
           | Some field => Some field
           | None => columnMappings st !! c
           end
    else columnMappings st !! c.
Proof.
  induction cols as [|a rest IH]; intros st c.
  - destruct (decide (c ∈ [])) as [Hin|]; [by apply elem_of_nil in Hin | done].
  - cbn [foldl]. rewrite IH, map_column_chosen.
    assert (Hstep : columnMappings
                (match chosen L fields lowered a with
                 | Some field => setColumnMapping a field st
                 | None => st
                 end) !! c =
              if decide (c = a) then
                if decide (a = "__proto__") then columnMappings st !! c
                else match chosen L fields lowered a with
                     | Some field => Some field
                     | None => columnMappings st !! c
                     end
              else columnMappings st !! c).
    { destruct (chosen L fields lowered a); cbn [columnMappings setColumnMapping].
      - apply assign_lookup.
      - by repeat destruct (decide _). }
    rewrite Hstep. clear Hstep.
    destruct (decide (c = a)) as [->|Hne].
    + rewrite (decide_True (P := a ∈ a :: rest)) by (by left).
      destruct (decide (a = "__proto__")); [by destruct (decide (a ∈ rest))|].
      destruct (chosen L fields lowered a); by destruct (decide (a ∈ rest)).
    + destruct (decide (c ∈ rest)) as [Hin|Hout].
      * by rewrite (decide_True (P := c ∈ a :: rest)) by (by right).
      * rewrite (decide_False (P := c ∈ a :: rest)); [done|].
        by intros [?|?]%elem_of_cons.
Qed.

(** When the guard lets the mapper run, its result is a function of the
    file and the field list alone. *)
Lemma autoMapColumns_runs (L : lowering) st file :
  inputFileData st = Some file ->
  availableFields st ≠ [] ->
  autoMapColumns L st =
  foldl (map_column L (availableFields st)
           (vaultFieldsLower L (availableFields st)))
    {| inputFileData := Some file; availableFields := availableFields st;
       columnMappings := ∅ |}
    (columns file).
Proof.
  intros Hfile Hfields. unfold autoMapColumns, clearColumnMappings.
  rewrite Hfile. by destruct (availableFields st).
Qed.

Lemma autoMapColumns_guard (L : lowering) st :
  inputFileData st = None ∨ availableFields st = [] -> autoMapColumns L st = st.
Proof.
  unfold autoMapColumns. intros [->| ->]; [done|].
  by destruct (inputFileData st).
Qed.

(** The mapper on ASCII names does not depend on what the lowering does to
    other letters. *)
Lemma chosen_example (L : lowering) :
  let fields := ["Account Name"; "email"] in
  chosen L fields (vaultFieldsLower L fields) "Account_Name" =
    Some (Text "Account Name") ∧
  chosen L fields (vaultFieldsLower L fields) "Email" = Some (Text "email").
Proof.
  unfold chosen, vaultFieldsLower. cbn [foldl].
  change (replace "_" " " "Account_Name") with "Account Name".
  change (replace " " "_" "Account_Name") with "Account_Name".
  change (replace "_" " " "Email") with "Email".
  change (replace " " "_" "Email") with "Email".
  rewrite !(lower_ascii_text L "Account Name"),
    !(lower_ascii_text L "Account_Name"), !(lower_ascii_text L "email"),
    !(lower_ascii_text L "Email") by reflexivity.
  split; reflexivity.
Qed.

(** C7, amended. When a file is loaded and the list of remote fields is not
    empty, each column of the file gets what the four rules give in their
    priority order (exact, case-insensitive, case-insensitive with the first
    underscore turned into a space, case-insensitive with the first space
    turned into an underscore), a column that no rule matches has no entry,
    and nothing but columns of the file is mapped.  This holds for every
    column other than __proto__ whose lookups do not fall through to a
    member that every object inherits: each of its three lowered keys that
    is a name of Object.prototype (constructor, for one) is not __proto__
    and is what some remote field lowers to.  When no file is loaded or the
    list of remote fields is empty, the mapper leaves the mapping as it
    was.  In particular the columns Account_Name and Email against the
    fields "Account Name" and "email" give Account_Name -> "Account Name"
    and Email -> "email". *)
Theorem autoMap_priority :
  (∀ (L : lowering) st file c,
     inputFileData st = Some file ->
     availableFields st ≠ [] ->
     (c ∈ columns file ->
      plain L (availableFields st) c ->
      ∃ r, matched L (availableFields st) c r ∧
           columnMappings (autoMapColumns L st) !! c = Text <$> r) ∧
     (c ∉ columns file -> columnMappings (autoMapColumns L st) !! c = None)) ∧
  (∀ (L : lowering) st,
     inputFileData st = None ∨ availableFields st = [] ->
     columnMappings (autoMapColumns L st) = columnMappings st) ∧
  (∀ (L : lowering) st,
     columnMappings
       (autoMap L ["Account_Name"; "Email"] ["Account Name"; "email"] st) =
     <["Account_Name" := Text "Account Name"]> (<["Email" := Text "email"]> ∅)).
Proof.
  split; [|split].
  - intros L st file c Hfile Hfields.
    rewrite (autoMapColumns_runs L st file Hfile Hfields), map_columns_lookup.
    split.
    + intros Hc [Hproto Hkeys]. rewrite decide_True, decide_False by done.
      destruct (chosen_matched L (availableFields st) c Hkeys) as (r & Hm & ->).
      exists r. split; [done|]. by destruct r.
    + intros Hc. by rewrite decide_False by done.
  - intros L st Hguard. by rewrite autoMapColumns_guard.
  - intros L st. apply map_eq. intros c. unfold autoMap.
    rewrite (autoMapColumns_runs _ _ {| columns := ["Account_Name"; "Email"];
                                        data := [] |}) by done.
    rewrite map_columns_lookup. cbn [availableFields setAvailableFields columns].
    destruct (chosen_example L) as [Hfirst Hsecond].
    destruct (decide (c = "Account_Name")) as [->|Hne1].
    { by rewrite decide_True, decide_False, Hfirst by (done || by left). }
    destruct (decide (c = "Email")) as [->|Hne2].
    { rewrite decide_True, decide_False, Hsecond; [done..|]. right. by left. }
    rewrite decide_False.
    + by rewrite !lookup_insert_ne, !lookup_empty by done.
    + intros [?|[?|?%elem_of_nil]%elem_of_cons]%elem_of_cons; done.
Qed.

Lemma autoMap_priority_witness :
  let st := {| inputFileData :=
                 Some {| columns := ["Id"; "first name"; "Phone"]; data := [] |};
               availableFields := ["id"; "First_Name"];
               columnMappings := ∅ |} in
  (∃ r, matched ascii_lowering ["id"; "First_Name"] "first name" r ∧
        columnMappings (autoMapColumns ascii_lowering st) !! "first name" =
          Text <$> r) ∧
  columnMappings (autoMapColumns ascii_lowering st) !! "Fax" = None ∧
  columnMappings (autoMapColumns ascii_lowering (setAvailableFields [] st)) =
    columnMappings (setAvailableFields [] st).
Proof.
  intros st.
  destruct autoMap_priority as (Hrules & Hguard & _).
  split; [|split].
  - apply (Hrules ascii_lowering st
             {| columns := ["Id"; "first name"; "Phone"]; data := [] |}
             "first name" eq_refl); [discriminate | |].
    + apply (bool_decide_unpack _). reflexivity.
    + split; [discriminate|]. apply (bool_decide_unpack _). reflexivity.
  - apply (Hrules ascii_lowering st
             {| columns := ["Id"; "first name"; "Phone"]; data := [] |}
             "Fax" eq_refl); [discriminate|].
    apply (bool_decide_unpack _). reflexivity.
  - apply Hguard. right. reflexivity.
Defined.

(** C7 as first written.  After a run that mapped Email, a run with an empty
    list of remote fields leaves Email mapped although no remote field is
    left to match it.  And the column constructor, which none of the four
    rules matches with the remote field name, is mapped all the same: to
    the member that the lookup object inherits under that name. *)
Lemma autoMap_priority_counterexample :
  let empty :=
    {| inputFileData := None; availableFields := []; columnMappings := ∅ |} in
  let first := autoMap ascii_lowering ["Email"] ["email"] empty in
  let second := autoMap ascii_lowering ["Email"] [] first in
  (availableFields second = [] ∧
   columnMappings second !! "Email" = Some (Text "email")) ∧
  (matched ascii_lowering ["name"] "constructor" None ∧
   columnMappings (autoMap ascii_lowering ["constructor"] ["name"] empty)
     !! "constructor" = Some (Inherited "constructor")).
Proof.
  split; [split; reflexivity|]. split; [|reflexivity].
  assert (Hnone : ∀ name, toLowerCase name ≠ "name" ->
            no_ci_match ascii_lowering ["name"] name).
  { intros name Hname field [Hin Hlow]. apply list_elem_of_singleton in Hin.
    subst field. by symmetry in Hlow. }
  apply no_hit; [|by apply Hnone..].
  by intros ?%list_elem_of_singleton.
Qed.

(** C8, amended. When a file is loaded and the list of remote fields is not
    empty, a run of the mapper replaces the mapping altogether: the result
    does not depend on the mapping before the run, whether it came from an
    earlier run or from manual edits, and holds entries for columns of the
    current file only.  When no file is loaded or the list of remote fields
    is empty, the run returns at once and leaves the mapping as it was. *)
Theorem autoMap_rerun :
  (∀ (L : lowering) st1 st2 file,
     inputFileData st1 = Some file ->
     inputFileData st2 = Some file ->
     availableFields st1 = availableFields st2 ->
     availableFields st1 ≠ [] ->
     autoMapColumns L st1 = autoMapColumns L st2 ∧
     ∀ c, c ∉ columns file ->
          columnMappings (autoMapColumns L st1) !! c = None) ∧
  (∀ (L : lowering) localColumns remoteFields st1 st2,
     remoteFields ≠ [] ->
     autoMap L localColumns remoteFields st1 =
     autoMap L localColumns remoteFields st2) ∧
  (∀ (L : lowering) st,
     inputFileData st = None ∨ availableFields st = [] ->
     autoMapColumns L st = st).
Proof.
  split; [|split].
  - intros L st1 st2 file Hfile1 Hfile2 Hsame Hfields. split.
    + rewrite (autoMapColumns_runs L st1 file), (autoMapColumns_runs L st2 file);
        try done; [by rewrite Hsame | by rewrite <- Hsame].
    + intros c Hc. rewrite (autoMapColumns_runs L st1 file Hfile1 Hfields).
      rewrite map_columns_lookup. by rewrite decide_False by done.
  - intros L cols fields st1 st2 Hfields. unfold autoMap.
    by rewrite !(autoMapColumns_runs L _ {| columns := cols; data := [] |}).
  - intros L. apply autoMapColumns_guard.
Qed.

Lemma autoMap_rerun_witness :
  let edited :=
    setColumnMapping "Phone" (Text "phone__v")
      (autoMap ascii_lowering ["Name"; "Phone"] ["Name"]
         {| inputFileData := None; availableFields := []; columnMappings := ∅ |}) in
  autoMap ascii_lowering ["Email"] ["email"] edited =
  autoMap ascii_lowering ["Email"] ["email"]
    {| inputFileData := None; availableFields := []; columnMappings := ∅ |} ∧
  autoMapColumns ascii_lowering (setAvailableFields [] edited) =
    setAvailableFields [] edited.
Proof.
  intros edited. destruct autoMap_rerun as (_ & Hreplace & Hguard).
  split.
  - apply Hreplace. discriminate.
  - apply Hguard. right. reflexivity.
Defined.

(** C8 as first written: after a first run that mapped Name and a manual
    edit of Phone, a second run with other columns and an empty list of
    remote fields leaves both entries in the mapping. *)
Lemma autoMap_rerun_counterexample :
  let first :=
    autoMap ascii_lowering ["Name"; "Phone"] ["Name"]
      {| inputFileData := None; availableFields := []; columnMappings := ∅ |} in
  let edited := setColumnMapping "Phone" (Text "phone__v") first in
  let second := autoMap ascii_lowering ["Email"] [] edited in
  columnMappings second !! "Name" = Some (Text "Name") ∧
  columnMappings second !! "Phone" = Some (Text "phone__v").
Proof. split; reflexivity. Qed.

End MapperSpec.

(** ** SessionManager *)

Module SessionSpec.
Import Session.

(** X1. Once [getSessionId] has resolved to a non-empty token, every later
    call resolves to the same token without any exchange and leaves the
    object as it is, whatever the service would answer. *)
Theorem session_reused srv api token api' exchanges :
  getSessionId srv api = (Returned (Some token), api', exchanges) ->
  token ≠ "" ->
  ∀ srv', getSessionId srv' api' = (Returned (Some token), api', []).
Proof.
  intros Hcall Hne srv'.
  assert (Hcached : sessionId api' = Some token).
  { unfold getSessionId in Hcall.
    destruct (sessionId api) as [[|c rest]|] eqn:Hsid;
      try (injection Hcall as <- <- _; by rewrite Hsid);
      destruct (srv _) as [m|code [m|sid d]]; try discriminate;
      destruct (response_ok code); try discriminate;
      by injection Hcall as -> <- _. }
  unfold getSessionId. rewrite Hcached.
  destruct token as [|c rest]; [done | reflexivity].
Qed.

Lemma session_reused_witness :
  let srv : authenticator := fun _ => Response 200 (Decoded (Some "TOKEN") None) in
  let down : authenticator := fun _ => Rejected "Failed to fetch" in
  let api := init "https://vault" "user" "secret" true
               (mkAPI None "" "" "" true) in
  getSessionId down (getSessionId srv api).1.2 =
  (Returned (Some "TOKEN"), (getSessionId srv api).1.2, []).
Proof.
  intros srv down api.
  apply (session_reused srv api "TOKEN" _ [auth_request_of api] eq_refl).
  discriminate.
Defined.

(** X2. After [init], whatever token the object held, the next
    [getSessionId] makes exactly one exchange, at the new address with the
    new credentials. *)
Theorem init_discards_session srv url user pass verify api :
  (getSessionId srv (init url user pass verify api)).2 =
  [{| auth_url := Push.CORS_PROXY +:+ url +:+ "/api/v24.1/auth";
      form_username := user; form_password := pass |}].
Proof.
  unfold getSessionId, init, auth_request_of. simpl.
  destruct (srv _) as [m|code [m|sid d]]; simpl; try done;
    by destruct (response_ok code).
Qed.

(** X3. When [getSessionId] throws, nothing is cached: the object is as it
    was, one exchange was made, and the next call makes the exchange again.
    When the answer has a status that is not ok and a readable body, the
    error reads "Authentication failed: <status> - <detail>", with
    'No details available' for a missing or empty detail. *)
Theorem failed_authentication srv api error api' exchanges :
  getSessionId srv api = (Threw error, api', exchanges) ->
  api' = api ∧
  exchanges = [auth_request_of api] ∧
  (∀ srv', (getSessionId srv' api).2 = [auth_request_of api]) ∧
  (∀ code sid detail,
     srv (auth_request_of api) = Response code (Decoded sid detail) ->
     error = "Authentication failed: " +:+ number_to_string code +:+ " - " +:+
             match detail with
             | Some (String c rest) => String c rest
             | _ => "No details available"
             end).
Proof.
  intros Hcall. unfold getSessionId in *.
  destruct (sessionId api) as [[|c rest]|] eqn:Hsid; try discriminate.
  all: destruct (srv (auth_request_of api)) as [m|code [m|sid d]] eqn:Hsrv;
    [ | destruct (response_ok code) eqn:Hok; try discriminate
      | destruct (response_ok code) eqn:Hok; try discriminate ].
  all: injection Hcall as <- <- <-.
  all: split; [done|]; split; [done|]; split;
    [ intros srv'; destruct (srv' _) as [m'|code' [m'|sid' d']]; simpl; try done;
      by destruct (response_ok code')
    | intros code2 sid2 d2 [=]; subst; try done ].
Qed.

Lemma failed_authentication_witness :
  let srv : authenticator := fun _ => Response 401 (Decoded None (Some "")) in
  let api := mkAPI None "https://vault" "user" "wrong" true in
  (getSessionId srv api).1.2 = api ∧
  (getSessionId srv api).1.1 =
    Threw "Authentication failed: 401 - No details available".
Proof.
  intros srv api.
  destruct (failed_authentication srv api
              "Authentication failed: 401 - No details available" api
              [auth_request_of api] eq_refl) as (Hsame & _ & _ & Hmsg).
  split; [reflexivity|].
  rewrite (Hmsg 401 None (Some "") eq_refl). reflexivity.
Defined.

(** X4. An answer with an ok status whose body carries no [sessionId]
    makes [testConnection] report success although [getSessionId] resolved
    to [undefined] and nothing was cached: the next call makes the exchange
    again. *)
Theorem connection_test_without_token srv api code detail :
  sessionId api = None ->
  srv (auth_request_of api) = Response code (Decoded None detail) ->
  response_ok code = true ->
  (testConnection srv api).1.1 = true ∧
  (getSessionId srv api).1.1 = Returned None ∧
  sessionId (testConnection srv api).1.2 = None ∧
  ∀ srv', (getSessionId srv' (testConnection srv api).1.2).2 =
          [auth_request_of api].
Proof.
  intros Hsid Hsrv Hok. unfold testConnection, getSessionId.
  rewrite Hsid, Hsrv, Hok. simpl. repeat split.
  intros srv'. unfold auth_request_of. simpl.
  destruct (srv' _) as [m'|code' [m'|sid' d']]; simpl; try done;
    by destruct (response_ok code').
Qed.

Lemma connection_test_without_token_witness :
  let srv : authenticator := fun _ => Response 200 (Decoded None (Some "INVALID")) in
  let api := mkAPI None "https://vault" "user" "wrong" true in
  (testConnection srv api).1.1 = true ∧
  (getSessionId srv api).1.1 = Returned None.
Proof.
  intros srv api.
  destruct (connection_test_without_token srv api 200 (Some "INVALID")
              eq_refl eq_refl eq_refl) as (Htest & Hget & _).
  split; [exact Htest | exact Hget].
Defined.

End SessionSpec.

(** ** Runs of [pullData] *)

Module PullRunSpec.
Import Pull PullRun.

Section Run.

Variable srv : server.
Variable batchSize : Z.
Variable progressCallback : bool.

Local Abbreviation iteration := (iteration srv batchSize progressCallback).
Local Abbreviation loop := (loop srv batchSize progressCallback).
Local Abbreviation accept := (accept progressCallback).

Lemma loop_unfold fuel st :
  loop fuel st =
  if moreData st then
    match fuel with
    | O => None
    | S fuel' => loop fuel' (iteration st)
    end
  else Some st.
Proof. by destruct fuel. Qed.

Lemma progress_counts_app tr1 tr2 :
  progress_counts (tr1 ++ tr2) = progress_counts tr1 ++ progress_counts tr2.
Proof. apply omap_app. Qed.

(** The state after a first request that delivered the page [p]. *)
Lemma iteration_accepts st p :
  delivered (srv (issued st) batchSize (offset st)) = Some p ->
  iteration st =
  accept
    {| offset := offset st; allData := allData st; moreData := moreData st;
       issued := S (issued st);
       trace := trace st ++ [Request batchSize (offset st)] |}
    p batchSize.
Proof. intros Hfirst. unfold Pull.iteration, request. by rewrite Hfirst. Qed.

Lemma clean_records_sanitized recs : clean_records recs = sanitized <$> recs.
Proof.
  unfold clean_records. apply list_fmap_ext. intros _ r _.
  apply PullSpec.clean_record_fmap.
Qed.

Local Abbreviation adds_page := (adds_page progressCallback).

Lemma accept_adds st0 st p size :
  allData st = allData st0 ->
  progress_counts (trace st) = progress_counts (trace st0) ->
  adds_page st0 (accept st p size).
Proof.
  intros Hdata Hprog. destruct p as [[|r recs]|].
  - by left.
  - right. exists (r :: recs). split; [done|].
    cbn [Pull.accept ingest allData trace].
    rewrite Hdata, progress_counts_app, Hprog, clean_records_sanitized.
    split; [done|]. by destruct progressCallback.
  - by left.
Qed.

Lemma iteration_adds st : adds_page st (iteration st).
Proof.
  destruct (delivered (srv (issued st) batchSize (offset st))) as [p|] eqn:Hfirst.
  - rewrite (iteration_accepts st p Hfirst). apply accept_adds; simpl; [done|].
    by rewrite progress_counts_app, app_nil_r.
  - destruct (Z.le_gt_cases 10 (batchSize / 2)) as [Hhalf|Hhalf].
    + destruct (delivered (srv (S (issued st)) (batchSize / 2) (offset st)))
        as [p|] eqn:Hretry.
      * rewrite (PullSpec.iteration_retried _ _ _ st p Hfirst Hhalf Hretry).
        apply accept_adds; simpl; [done|].
        by rewrite !progress_counts_app, !app_nil_r.
      * rewrite (PullSpec.iteration_retry_failed _ _ _ st Hfirst Hhalf Hretry).
        left. simpl. by rewrite !progress_counts_app, !app_nil_r.
    + rewrite (PullSpec.iteration_no_retry _ _ _ st Hfirst Hhalf).
      left. simpl. by rewrite progress_counts_app, app_nil_r.
Qed.

End Run.

(** X5. Against a service none of whose page requests ever succeeds,
    [pullData] never returns: a failed page is skipped and the loop goes on
    asking, so no amount of fuel is enough. *)
Theorem dead_server_never_ends srv batchSize progressCallback fuel sessionId :
  (∀ n limit off, delivered (srv n limit off) = None) ->
  pullData srv batchSize progressCallback fuel (SessionId sessionId) =
  (Diverged, []).
Proof.
  intros Hdead. unfold pullData.
  assert (Hloop : ∀ fuel st, moreData st = true ->
            loop srv batchSize progressCallback fuel st = None).
  { clear fuel. induction fuel as [|fuel IH]; intros st Hmore;
      rewrite loop_unfold, Hmore; [done|].
    apply IH.
    destruct (Z.le_gt_cases 10 (batchSize / 2)) as [Hhalf|Hhalf].
    - by rewrite PullSpec.iteration_retry_failed.
    - by rewrite PullSpec.iteration_no_retry. }
  by rewrite Hloop.
Qed.

Lemma dead_server_never_ends_witness :
  pullData (fun _ _ _ => Response 503 None) 100 true 1000 (SessionId "S1") =
  (Diverged, []).
Proof.
  apply (dead_server_never_ends (fun _ _ _ => Response 503 None)).
  intros n limit off. reflexivity.
Defined.

Lemma running_totals_cons before page rest :
  running_totals before (page :: rest) =
  Z.of_nat (before + length page) ::
  running_totals (before + length page) rest.
Proof.
  unfold running_totals. cbn [length seq fmap list_fmap]. f_equal.
  - cbn [take concat]. by rewrite take_0, app_nil_r.
  - rewrite <- fmap_S_seq, <- list_fmap_compose.
    apply list_fmap_ext. intros _ j _. simpl.
    rewrite length_app. f_equal. lia.
Qed.

Lemma fmap_seq_S {B : Type} (f : nat -> B) n :
  f <$> seq 0 (S n) = f 0%nat :: ((fun j => f (S j)) <$> seq 0 n).
Proof.
  cbn [seq fmap list_fmap]. f_equal.
  by rewrite <- fmap_S_seq, <- list_fmap_compose.
Qed.

Lemma loop_pages srv batchSize rest :
  ∀ fuel st,
    moreData st = true ->
    (∀ j page, rest !! j = Some page ->
       page ≠ [] ∧
       delivered (srv (issued st + j)%nat batchSize
                    (offset st + Z.of_nat j * batchSize)) = Some (Some page)) ->
    (∃ p, delivered (srv (issued st + length rest)%nat batchSize
                       (offset st + Z.of_nat (length rest) * batchSize)) = Some p ∧
          (p = None ∨ p = Some [])) ->
    (length rest < fuel)%nat ->
    ∃ st',
      loop srv batchSize true fuel st = Some st' ∧
      allData st' = allData st ++ (sanitized <$> concat rest) ∧
      requests (trace st') =
        requests (trace st) ++
        ((fun j => (batchSize, offset st + Z.of_nat j * batchSize)) <$>
         seq 0 (S (length rest))) ∧
      progress_counts (trace st') =
        progress_counts (trace st) ++ running_totals (length (allData st)) rest.
Proof.
  induction rest as [|page rest IH]; intros fuel st Hmore Hpages Hlast Hfuel;
    (destruct fuel as [|fuel]; [simpl in Hfuel; lia|]);
    rewrite loop_unfold, Hmore.
  - destruct Hlast as (p & Hp & Hempty). simpl in Hp.
    rewrite Nat.add_0_r, Z.add_0_r in Hp.
    rewrite (iteration_accepts _ _ _ st p Hp).
    eexists. split.
    + rewrite loop_unfold. by destruct Hempty as [-> | ->].
    + destruct Hempty as [-> | ->]; simpl;
        rewrite PullSpec.requests_app, progress_counts_app, !app_nil_r;
        simpl; by rewrite Z.add_0_r.
  - destruct (Hpages 0%nat page eq_refl) as [Hne Hfirst].
    rewrite Nat.add_0_r in Hfirst. simpl in Hfirst.
    rewrite Z.add_0_r in Hfirst.
    rewrite (iteration_accepts _ _ _ st (Some page) Hfirst).
    destruct page as [|r page']; [done|]. cbn [Pull.accept].
    set (st2 := ingest true _ (r :: page') batchSize).
    destruct (IH fuel st2) as (st' & Hrun & Hdata & Hreq & Hprog).
    + done.
    + intros j pg Hj. destruct (Hpages (S j) pg Hj) as [Hpg Hdel].
      split; [done|]. subst st2. simpl.
      rewrite <- Hdel. f_equal. f_equal; lia.
    + destruct Hlast as (p & Hp & Hempty). exists p. split; [|done].
      subst st2. simpl. rewrite <- Hp. simpl. f_equal. f_equal; lia.
    + simpl in Hfuel. lia.
    + exists st'. split; [done|]. subst st2.
      cbn [ingest offset allData trace issued moreData] in Hdata, Hreq, Hprog.
      rewrite Hdata, Hreq, Hprog. clear.
      rewrite clean_records_sanitized. split; [|split].
      * cbn [concat]. by rewrite fmap_app, <- app_assoc.
      * rewrite !PullSpec.requests_app.
        change (requests [Request ?l ?o]) with [(l, o)].
        change (requests [Progress ?n]) with (@nil (Z * Z)).
        rewrite app_nil_r, <- app_assoc. f_equal.
        rewrite (fmap_seq_S _ (S (length rest))).
        change ([?x] ++ ?l) with (x :: l). f_equal; [f_equal; lia|].
        apply list_fmap_ext. intros _ j _. f_equal. lia.
      * rewrite !progress_counts_app.
        change (progress_counts [Request ?l ?o]) with (@nil Z).
        change (progress_counts [Progress ?n]) with [n].
        rewrite app_nil_r, <- app_assoc, running_totals_cons.
        change ([?x] ++ ?l) with (x :: l).
        by rewrite !length_app, !length_fmap.
Qed.

(** X6. Against a service that delivers the non-empty pages [pages] one
    after the other and then an empty page, [pullData] returns the sanitized
    records of all the pages in order; it asked [length pages + 1] times, at
    the offsets 0, N, 2N, ... with the page size N each time, and the
    progress callback got the running totals. *)
Theorem orderly_pagination srv batchSize fuel sessionId pages :
  (∀ j page, pages !! j = Some page ->
     page ≠ [] ∧
     delivered (srv j batchSize (Z.of_nat j * batchSize)) = Some (Some page)) ->
  (∃ p, delivered (srv (length pages) batchSize
                     (Z.of_nat (length pages) * batchSize)) = Some p ∧
        (p = None ∨ p = Some [])) ->
  (length pages < fuel)%nat ->
  ∃ tr,
    pullData srv batchSize true fuel (SessionId sessionId) =
      (Returned (sanitized <$> concat pages), tr) ∧
    requests tr =
      (fun j => (batchSize, Z.of_nat j * batchSize)) <$> seq 0 (S (length pages)) ∧
    progress_counts tr = running_totals 0 pages.
Proof.
  intros Hpages Hlast Hfuel.
  destruct (loop_pages srv batchSize pages fuel initial eq_refl)
    as (st' & Hrun & Hdata & Hreq & Hprog); try done.
  unfold pullData. rewrite Hrun. exists (trace st').
  simpl in *. by rewrite Hdata, Hreq, Hprog.
Qed.

Lemma orderly_pagination_witness :
  let r1 : record := {["name__v" := JString "[Acme]"]} in
  let r2 : record := {["name__v" := JString "Globex"]} in
  let srv : server := fun n _ _ =>
    match n with
    | O => Response 200 (Some [r1; r2])
    | S O => Response 200 (Some [r2])
    | _ => Response 200 (Some [])
    end in
  ∃ tr,
    pullData srv 2 true 5 (SessionId "S1") =
      (Returned (sanitized <$> [r1; r2; r2]), tr) ∧
    requests tr = [(2, 0); (2, 2); (2, 4)] ∧
    progress_counts tr = [2; 3].
Proof.
  intros r1 r2 srv.
  destruct (orderly_pagination srv 2 5 "S1" [[r1; r2]; [r2]])
    as (tr & Hrun & Hreq & Hprog).
  - intros [|[|j]] page Hj; try discriminate;
      injection Hj as <-; (split; [discriminate | reflexivity]).
  - exists (Some []). split; [reflexivity | by right].
  - apply Nat.ltb_lt. reflexivity.
  - exists tr. split; [exact Hrun|]. split; [exact Hreq | exact Hprog].
Defined.

Lemma reported_step st st' :
  adds_page true st st' -> reported st -> reported st'.
Proof.
  intros [[Hdata Hprog]|(recs & Hne & Hdata & Hprog)]
    (Hsorted & Hbound & Hnone & Hlast); unfold reported.
  - by rewrite Hdata, Hprog.
  - rewrite Hprog. assert (Hgrow : (length (allData st) < length (allData st'))%nat).
    { rewrite Hdata, length_app, length_fmap. destruct recs; [done|simpl; lia]. }
    split; [|split; [|split]].
    + apply StronglySorted_app_2; [|done|repeat constructor].
      intros c1 c2 Hc1 ->%list_elem_of_singleton.
      rewrite Forall_forall in Hbound. specialize (Hbound c1 Hc1). lia.
    + apply Forall_app. split.
      * eapply Forall_impl; [exact Hbound|]. intros c Hc. simpl in Hc. lia.
      * apply Forall_singleton. lia.
    + intros Hempty. rewrite Hempty in Hgrow. simpl in Hgrow. lia.
    + intros _. apply last_snoc.
Qed.

Lemma reported_loop srv batchSize fuel :
  ∀ st st',
    reported st ->
    loop srv batchSize true fuel st = Some st' ->
    reported st'.
Proof.
  induction fuel as [|fuel IH]; intros st st' Hinv; rewrite loop_unfold;
    destruct (moreData st); try discriminate; try (by intros [= <-]).
  apply IH. eapply reported_step; [apply iteration_adds | done].
Qed.

(** X7. In every run of [pullData] that returns, whatever the service
    answered, the totals given to the progress callback grow strictly, there
    is no call when no record was fetched, and otherwise the last call
    carries the number of records returned. *)
Theorem progress_reports_grow srv batchSize fuel sessionId result tr :
  pullData srv batchSize true fuel (SessionId sessionId) = (Returned result, tr) ->
  StronglySorted Z.lt (progress_counts tr) ∧
  (result = [] -> progress_counts tr = []) ∧
  (result ≠ [] -> last (progress_counts tr) = Some (Z.of_nat (length result))).
Proof.
  unfold pullData.
  destruct (loop srv batchSize true fuel initial) as [st'|] eqn:Hrun;
    [|discriminate].
  intros [= <- <-].
  destruct (reported_loop srv batchSize fuel initial st') as (H1 & _ & H3 & H4);
    [|done|done].
  repeat split; try done; constructor.
Qed.

Lemma progress_reports_grow_witness :
  let r : record := {["id" := JString "V0"]} in
  let srv : server := fun n _ _ =>
    match n with
    | O => Response 200 (Some [r; r])
    | S O => Response 500 None
    | S (S O) => Response 200 (Some [r])
    | _ => Response 200 None
    end in
  last (progress_counts (pullData srv 20 true 5 (SessionId "S1")).2) = Some 3.
Proof.
  intros r srv.
  destruct (progress_reports_grow srv 20 5 "S1"
              (fmap (M:=list) sanitized [r; r; r])
              (pullData srv 20 true 5 (SessionId "S1")).2 eq_refl)
    as (_ & _ & Hlast).
  apply Hlast. discriminate.
Defined.

End PullRunSpec.

(** ** Runs of [pushData] *)

Module PushRunSpec.
Import Push.

(** X8. With a requested batch size that is zero or negative and at least
    one record, [pushData] never returns and never sends a write: the index
    of the loop that cuts the batches does not move forward. *)
Theorem nonpositive_batch_size_never_ends {A : Type} srv apiUrl objectName
    operation progressCallback fuel sessionId (data : list A) batchSize :
  batchSize <= 0 ->
  data ≠ [] ->
  pushData A srv apiUrl objectName operation progressCallback fuel
    (SessionId sessionId) data batchSize = (Diverged, []).
Proof.
  intros Hsize Hdata. unfold pushData.
  rewrite PushSpec.prepare_stuck; [done| |done|done].
  unfold actualBatchSize. destruct (String.eqb _ _); lia.
Qed.

Lemma nonpositive_batch_size_never_ends_witness :
  pushData nat (fun _ _ => WriteResponse 200 "ok") "https://vault" "account__v"
    "insert" true 1000 (SessionId "S1") [1; 2; 3]%nat 0 = (Diverged, []).
Proof.
  apply nonpositive_batch_size_never_ends;
    [apply Z.leb_le; reflexivity | discriminate].
Defined.

Lemma body_write_of {A : Type} apiUrl objectName operation sessionId
    (batches : list (list A)) :
  body <$> (write_of A apiUrl objectName operation sessionId <$> batches) =
  batches.
Proof.
  rewrite <- list_fmap_compose. rewrite <- (list_fmap_id batches) at 2.
  apply list_fmap_ext. intros _ b _. simpl. unfold write_of.
  by destruct (target _ _ _).
Qed.

(** X9. With a batch size of at least 1, [pushData] returns and the bodies
    of its writes, put end to end in the order they were sent, are the
    records it was given: every record is sent exactly once, in order,
    whatever the outcomes of the writes. *)
Theorem every_record_sent_once {A : Type} srv apiUrl objectName operation
    progressCallback sessionId (data : list A) batchSize :
  1 <= batchSize ->
  ∃ res tr,
    pushData A srv apiUrl objectName operation progressCallback (length data)
      (SessionId sessionId) data batchSize = (Returned res, tr) ∧
    concat (body <$> submitted tr) = data.
Proof.
  intros Hsize.
  pose proof (PushSpec.actualBatchSize_positive operation _ Hsize) as Hpos.
  pose proof (PushSpec.prepare_sized data _ (length data) Hpos (Nat.le_refl _))
    as Hprep.
  eexists _, _. split.
  - by apply PushSpec.pushData_prepared.
  - cbn [snd]. rewrite PushSpec.process_trace, app_nil_l.
    rewrite (PushSpec.submitted_batch_events apiUrl objectName operation
               progressCallback sessionId _ _ 0).
    rewrite body_write_of.
    assert (Hn : (0 < Z.to_nat (actualBatchSize operation batchSize))%nat) by lia.
    rewrite PushSpec.concat_stretches by done.
    apply take_ge. by destruct (PushSpec.count_spec data _ Hn) as (_ & ? & _).
Qed.

Lemma every_record_sent_once_witness :
  ∃ res tr,
    pushData nat (fun _ _ => WriteThrew "Failed to fetch" "stack")
      "https://vault" "account__v" "delete" false 5 (SessionId "S1")
      [1; 2; 3; 4; 5]%nat 2 = (Returned res, tr) ∧
    concat (body <$> submitted tr) = [1; 2; 3; 4; 5]%nat.
Proof.
  apply (every_record_sent_once (A:=nat)
           (fun _ _ => WriteThrew "Failed to fetch" "stack")
           "https://vault" "account__v" "delete" false "S1"
           [1; 2; 3; 4; 5]%nat 2).
  apply Z.leb_le. reflexivity.
Defined.

Section Counting.

Context {A : Type}.
Variable srv : nat -> write A -> written.
Variable apiUrl objectName operation : string.
Variable progressCallback : bool.

Local Abbreviation process :=
  (process A srv apiUrl objectName operation progressCallback).
Local Abbreviation write_of := (write_of A apiUrl objectName operation).

Lemma record_outcome_counts res i w :
  success (record_outcome res i w) =
    success res + (if App.batch_ok w then 1 else 0) ∧
  failures (record_outcome res i w) =
    failures res + (if App.batch_ok w then 0 else 1).
Proof.
  destruct w as [m stack|code text]; simpl; [lia|].
  destruct (response_ok code); simpl; lia.
Qed.

Lemma process_counts sessionId count remaining :
  ∀ i res tr,
    let oks := imap (fun j b => App.batch_ok (srv (i + j) (write_of sessionId b)))
                 remaining in
    success (process sessionId count remaining i res tr).1 =
      success res + Z.of_nat (length (filter (fun ok => ok = true) oks)) ∧
    failures (process sessionId count remaining i res tr).1 =
      failures res + Z.of_nat (length (filter (fun ok => ok = false) oks)).
Proof.
  induction remaining as [|b rest IH]; intros i res tr.
  - simpl. lia.
  - cbn [Push.process imap fst]. cbv zeta.
    destruct (IH (S i) (record_outcome res i (srv i (write_of sessionId b)))
                (tr ++ batch_events A apiUrl objectName operation
                         progressCallback sessionId count i b)) as [-> ->].
    destruct (record_outcome_counts res i (srv i (write_of sessionId b)))
      as [-> ->].
    rewrite Nat.add_0_r.
    replace (imap ((fun j b0 => App.batch_ok (srv (i + j) (write_of sessionId b0)))
                   ∘ S) rest)
      with (imap (fun j b0 => App.batch_ok (srv (S i + j) (write_of sessionId b0)))
              rest)
      by (apply imap_ext; intros j x _; simpl; do 2 f_equal; lia).
    destruct (App.batch_ok (srv i (write_of sessionId b))).
    + rewrite filter_cons_True, filter_cons_False by done. simpl length. lia.
    + rewrite filter_cons_False, filter_cons_True by done. simpl length. lia.
Qed.

End Counting.

Lemma filter_all (oks : list bool) :
  length (filter (fun ok => ok = true) oks) = length oks ↔
  Forall (fun ok => ok = true) oks.
Proof.
  induction oks as [|ok oks IH].
  - split; [constructor | done].
  - destruct ok.
    + rewrite filter_cons_True by done. simpl. rewrite Forall_cons.
      split; [intros [= Hlen]; split; [done | by apply IH]
             |intros [_ Hall]; f_equal; by apply IH].
    + rewrite filter_cons_False by done. rewrite Forall_cons.
      pose proof (length_filter (fun ok => ok = true) oks). simpl.
      split; [lia | by intros [? _]].
Qed.

(** X10. With a batch size of at least 1, [success] counts exactly the
    batches whose write was answered with an ok status and [failures] the
    others (a write that threw included); so the notification at the end of
    the push is 'success' exactly when every batch was answered with an ok
    status, and for an empty file it is 'success' with 0 batches. *)
Theorem success_counts_ok_batches {A : Type} srv apiUrl objectName operation
    progressCallback sessionId (data : list A) batchSize :
  1 <= batchSize ->
  ∃ batches res tr,
    prepare A (length data) data (actualBatchSize operation batchSize) 0 []
      = Some batches ∧
    pushData A srv apiUrl objectName operation progressCallback (length data)
      (SessionId sessionId) data batchSize = (Returned res, tr) ∧
    let oks := imap (fun i b =>
                 App.batch_ok
                   (srv i (write_of A apiUrl objectName operation sessionId b)))
                 batches in
    success res = Z.of_nat (length (filter (fun ok => ok = true) oks)) ∧
    failures res = Z.of_nat (length (filter (fun ok => ok = false) oks)) ∧
    ((App.summary operation res).1 = App.success ↔
     Forall (fun ok => ok = true) oks).
Proof.
  intros Hsize.
  pose proof (PushSpec.actualBatchSize_positive operation _ Hsize) as Hpos.
  pose proof (PushSpec.prepare_sized data _ (length data) Hpos (Nat.le_refl _))
    as Hprep.
  set (batches := stretch _ _ <$> _) in Hprep.
  exists batches. eexists _, _. split; [exact Hprep|].
  split; [by apply PushSpec.pushData_prepared|].
  cbv zeta. cbn [fst].
  destruct (process_counts srv apiUrl objectName operation progressCallback
              sessionId (Z.of_nat (length batches)) batches 0
              (fresh (Z.of_nat (length batches))) []) as [Hs Hf].
  cbv zeta in Hs, Hf. cbn [Nat.add fresh success failures] in Hs, Hf.
  rewrite Hs, Hf. split; [lia|]. split; [lia|].
  unfold App.summary. rewrite Hs.
  destruct (PushSpec.process_counters srv apiUrl objectName operation
              progressCallback sessionId (Z.of_nat (length batches)) batches 0
              (fresh (Z.of_nat (length batches))) []) as [-> _].
  cbn [fresh total]. rewrite <- filter_all, length_imap.
  destruct (Z.eqb_spec (0 + Z.of_nat (length (filter (fun ok => ok = true)
              (imap (fun i b => App.batch_ok
                 (srv i (write_of A apiUrl objectName operation sessionId b)))
                 batches)))) (Z.of_nat (length batches))) as [Heq|Hne];
    cbn [fst]; split; try done; intros; lia.
Qed.

Lemma success_counts_ok_batches_witness :
  let srv : nat -> write nat -> written := fun i _ =>
    match i with
    | O => WriteResponse 201 "created"
    | _ => WriteResponse 200 "ok"
    end in
  ∃ batches res tr,
    prepare nat 3 [1; 2; 3]%nat (actualBatchSize "insert" 2) 0 [] = Some batches ∧
    pushData nat srv "https://vault" "account__v" "insert" true 3
      (SessionId "S1") [1; 2; 3]%nat 2 = (Returned res, tr) ∧
    success res =
      Z.of_nat (length (filter (fun ok => ok = true)
        (imap (fun i b => App.batch_ok
           (srv i (write_of nat "https://vault" "account__v" "insert" "S1" b)))
           batches))).
Proof.
  intros srv.
  destruct (success_counts_ok_batches srv "https://vault" "account__v" "insert"
              true "S1" [1; 2; 3]%nat 2)
    as (batches & res & tr & Hprep & Hrun & Hs & _).
  - apply Z.leb_le. reflexivity.
  - exists batches, res, tr. split; [exact Hprep|]. split; [exact Hrun | exact Hs].
Defined.

End PushRunSpec.

(** ** The catalog and the order of the export *)

Module CatalogSpec.
Import Metadata Catalog.

Lemma compare_not_gt_trans a :
  ∀ b c,
    String.compare a b ≠ Gt -> String.compare b c ≠ Gt ->
    String.compare a c ≠ Gt.
Proof.
  induction a as [|x a IH]; intros [|y b] [|z c]; simpl; try done.
  unfold Ascii.compare.
  destruct (N.compare_spec (N_of_ascii x) (N_of_ascii y)) as [Hxy|Hxy|Hxy];
    destruct (N.compare_spec (N_of_ascii y) (N_of_ascii z)) as [Hyz|Hyz|Hyz];
    destruct (N.compare_spec (N_of_ascii x) (N_of_ascii z)) as [Hxz|Hxz|Hxz];
    try done; try lia.
  apply IH.
Qed.

Lemma leb_not_gt a b : String.leb a b ↔ String.compare a b ≠ Gt.
Proof. unfold String.leb. by destruct (String.compare a b). Qed.

#[local] Instance leb_transitive : Transitive (fun a b => String.leb a b).
Proof.
  intros a b c. rewrite !leb_not_gt. apply compare_not_gt_trans.
Qed.

#[local] Instance leb_total : Total (fun a b => String.leb a b).
Proof.
  intros a b. destruct (String.leb_total a b) as [H|H]; [left|right];
    by rewrite H.
Qed.

Lemma leb_reflexive a : String.leb a a.
Proof. by destruct (leb_total a a). Qed.

Lemma sort_sorted names : StronglySorted String.leb (sort names).
Proof. apply StronglySorted_merge_sort; apply _. Qed.

Lemma sort_permutation names : sort names ≡ₚ names.
Proof. apply merge_sort_Permutation. Qed.

Lemma elem_of_concat {B : Type} (x : B) (ls : list (list B)) :
  x ∈ concat ls -> ∃ l, x ∈ l ∧ l ∈ ls.
Proof.
  induction ls as [|l ls IH]; simpl; [by intros ?%elem_of_nil|].
  intros [Hx|Hx]%elem_of_app.
  - exists l. split; [done | by left].
  - destruct (IH Hx) as (l' & Hl' & Hin). exists l'. split; [done | by right].
Qed.

Lemma fmap_concat {B C : Type} (f : B -> C) (ls : list (list B)) :
  f <$> concat ls = concat (fmap (M:=list) f <$> ls).
Proof.
  induction ls as [|l ls IH]; [done|]. simpl. by rewrite fmap_app, IH.
Qed.

(** Groups of equal names laid out in the order of their names. *)
Lemma grouped_sorted (os : list string) (groups : list (list string)) :
  Forall2 (fun o group => Forall (eq o) group) os groups ->
  StronglySorted String.leb os ->
  StronglySorted String.leb (concat groups).
Proof.
  induction 1 as [|o group os groups Hgroup Hrest IH]; intros Hsorted;
    [constructor|].
  apply StronglySorted_cons in Hsorted as [Hhead Hsorted]. simpl.
  apply StronglySorted_app_2; [| |by apply IH].
  - intros x y Hx Hy. rewrite Forall_forall in Hgroup.
    rewrite <- (Hgroup x Hx).
    apply elem_of_concat in Hy as (g & Hy & Hg).
    apply list_elem_of_lookup in Hg as [i Hi].
    destruct (Forall2_lookup_r _ _ _ _ _ Hrest Hi) as (o' & Ho' & Hall).
    rewrite Forall_forall in Hall. rewrite <- (Hall y Hy).
    rewrite Forall_forall in Hhead. apply Hhead.
    by apply list_elem_of_lookup_2 in Ho'.
  - clear -Hgroup. induction Hgroup as [|x group Hx Hall IHg]; [constructor|].
    subst x. apply StronglySorted_cons. split; [|done].
    eapply Forall_impl; [exact Hall|]. intros y <-. apply leb_reflexive.
Qed.

Lemma contribution_names objectName r :
  Forall (eq objectName) (Object_Name <$> contribution objectName r) ∧
  StronglySorted String.leb (Field_Name <$> contribution objectName r).
Proof.
  destruct r as [m|code [names|]]; simpl; try (split; constructor);
    destruct (response_ok code); try (split; constructor).
  rewrite <- !list_fmap_compose. split.
  - apply Forall_fmap, Forall_true. done.
  - replace (Field_Name ∘ mkPair objectName <$> sort names) with (sort names)
      by (rewrite <- (list_fmap_id (sort names)) at 1; by apply list_fmap_ext).
    apply sort_sorted.
Qed.

(** X11. When the objects were listed, the rows that [exportMetadata]
    returns come in the order of the object names (non-decreasing, by code
    units), whatever the field fetches gave, and the rows of each object
    carry its name and come in the order of the field names. *)
Theorem export_rows_ordered srv code names progressCallback sessionId :
  response_ok code = true ->
  ∃ rows tr,
    exportMetadata (Response code names) srv progressCallback
      (SessionId sessionId) = (Returned rows, tr) ∧
    StronglySorted String.leb (Object_Name <$> rows) ∧
    ∀ i objectName,
      sort names !! i = Some objectName ->
      Forall (eq objectName)
        (Object_Name <$> contribution objectName (srv i objectName)) ∧
      StronglySorted String.leb
        (Field_Name <$> contribution objectName (srv i objectName)).
Proof.
  intros Hok. eexists _, _. split.
  - by apply MetadataSpec.exportMetadata_listed.
  - split; [|intros i o _; apply contribution_names].
    rewrite fmap_concat, fmap_imap.
    apply (grouped_sorted (sort names)); [|apply sort_sorted].
    apply Forall2_same_length_lookup. split; [by rewrite length_imap|].
    intros i o group Ho Hgroup. rewrite list_lookup_imap, Ho in Hgroup.
    injection Hgroup as <-. apply contribution_names.
Qed.

Lemma export_rows_ordered_witness :
  let srv : nat -> string -> fetched field_listing := fun i _ =>
    match i with
    | O => Response 200 (Some ["name__v"; "id"])
    | S O => Response 404 None
    | _ => Response 200 (Some ["status__v"])
    end in
  ∃ rows tr,
    exportMetadata (Response 200 ["product__v"; "account__v"; "order__c"])
      srv true (SessionId "S1") = (Returned rows, tr) ∧
    StronglySorted String.leb (Object_Name <$> rows).
Proof.
  intros srv.
  destruct (export_rows_ordered srv 200 ["product__v"; "account__v"; "order__c"]
              true "S1" eq_refl) as (rows & tr & Hrun & Hsorted & _).
  exists rows, tr. split; [exact Hrun | exact Hsorted].
Defined.

Lemma field_requests_app tr1 tr2 :
  field_requests (tr1 ++ tr2) = field_requests tr1 ++ field_requests tr2.
Proof. apply omap_app. Qed.

Lemma field_requests_collect (progressCallback : bool) totalObjects objects :
  ∀ i,
    field_requests
      (concat (imap (fun j o => ListFields o ::
                 (if progressCallback
                  then [Progress (Z.of_nat (i + j) + 1) totalObjects]
                  else [])) objects)) = objects.
Proof.
  induction objects as [|o rest IH]; intros i; [done|].
  cbn [imap concat]. rewrite field_requests_app.
  replace (field_requests (ListFields o :: _)) with [o]
    by (by destruct progressCallback).
  simpl. f_equal. rewrite <- (IH (S i)) at 2. do 2 f_equal.
  apply imap_ext. intros j x _. simpl.
  by replace (i + S j)%nat with (S (i + j)) by lia.
Qed.

(** X12. [exportMetadata] visits the catalog that [fetchObjects] returns:
    when [fetchObjects] returns the objects [objs] (a sorted rearrangement
    of the listed names), [exportMetadata] asks the fields of exactly these
    objects, once each and in that order, whatever the field fetches give;
    when [fetchObjects] throws, [exportMetadata] throws too and asks the
    fields of no object. *)
Theorem export_visits_catalog listing srv progressCallback sessionId :
  match fetchObjects listing (SessionId sessionId) with
  | Returned objs =>
      (∃ code names, listing = Response code names ∧ objs ≡ₚ names) ∧
      StronglySorted String.leb objs ∧
      ∃ rows tr,
        exportMetadata listing srv progressCallback (SessionId sessionId) =
          (Returned rows, tr) ∧
        field_requests tr = objs
  | _ =>
      ∃ error tr,
        exportMetadata listing srv progressCallback (SessionId sessionId) =
          (Threw error, tr) ∧
        field_requests tr = []
  end.
Proof.
  destruct listing as [m|code names]; simpl.
  - by eexists _, _.
  - destruct (response_ok code) eqn:Hok.
    + split; [exists code, names; split; [done | apply sort_permutation]|].
      split; [apply sort_sorted|].
      pose proof (MetadataSpec.exportMetadata_listed srv progressCallback code
                    names sessionId Hok) as Hrun.
      unfold exportMetadata in Hrun. rewrite Hok in Hrun.
      eexists _, _. split; [exact Hrun|].
      change (ListObjects :: ?l) with ([ListObjects] ++ l).
      rewrite field_requests_app.
      by rewrite (field_requests_collect progressCallback _ (sort names) 0).
    + by eexists _, _.
Qed.

(** X13. The rows of an object in the export are what [fetchObjectFields]
    returns for the same answer, sorted; when [fetchObjectFields] throws
    (rejected request, status that is not ok, object without fields) the
    export has no row for the object. *)
Theorem export_agrees_with_field_fetch type_error objectName answer sessionId :
  match fetchObjectFields type_error answer (SessionId sessionId) with
  | Returned fields =>
      contribution objectName answer = mkPair objectName <$> sort fields
  | _ => contribution objectName answer = []
  end.
Proof.
  destruct answer as [m|code [names|]]; simpl; try done;
    by destruct (response_ok code).
Qed.

End CatalogSpec.

(** ** The push of [app.js]: preparing the records, reporting the result *)

Module AppSpec.
Import App.

Lemma clean_row_fold keys :
  ∀ (row acc : gmap string string) k,
    foldl (fun cleanRow key => <[key := cell row key]> cleanRow) acc keys !! k =
    if decide (k ∈ keys) then Some (cell row k) else acc !! k.
Proof.
  induction keys as [|a keys IH]; intros row acc k.
  - destruct (decide (k ∈ [])) as [Hin|]; [by apply elem_of_nil in Hin | done].
  - cbn [foldl]. rewrite IH.
    destruct (decide (k ∈ keys)) as [Hin|Hout].
    + by rewrite decide_True by (by right).
    + destruct (decide (k = a)) as [->|Hne].
      * rewrite decide_True by (by left). by rewrite lookup_insert_eq.
      * rewrite decide_False by (by intros [?|?]%elem_of_cons).
        by rewrite lookup_insert_ne.
Qed.

Lemma clean_row_id (row : gmap string string) : clean_row row = row.
Proof.
  apply map_eq. intros k. unfold clean_row. rewrite clean_row_fold.
  destruct (row !! k) as [v|] eqn:Hk.
  - rewrite decide_True.
    + unfold cell. by rewrite Hk.
    + apply list_elem_of_fmap. exists (k, v). split; [done|].
      by apply elem_of_map_to_list.
  - rewrite decide_False; [by rewrite lookup_empty|].
    intros ([k' v] & -> & Hin%elem_of_map_to_list)%list_elem_of_fmap.
    simpl in Hk. congruence.
Qed.

(** The fields of a mapped row are non-empty values of the mapping. *)
Lemma mapped_row_fields mappings row keys :
  ∀ (acc : gmap string string) v,
    is_Some (foldl (mapped_step mappings row) acc keys !! v) ->
    is_Some (acc !! v) ∨
    (v ≠ "" ∧ ∃ c, c ∈ keys ∧ mappings !! c = Some v).
Proof.
  induction keys as [|a keys IH]; intros acc v Hv; [by left|].
  cbn [foldl] in Hv. apply IH in Hv as [Hacc|(Hne & c & Hc & Hm)].
  - unfold mapped_step in Hacc.
    destruct (mappings !! a) as [[|x rest]|] eqn:Ha; try by left.
    destruct (decide (v = String x rest)) as [->|Hneq].
    + right. split; [done|]. exists a. split; [by left | done].
    + left. by rewrite lookup_insert_ne in Hacc.
  - right. split; [done|]. exists c. split; [by right | done].
Qed.


(** X14. [prepareData] gives one record per row of the file, in order.  For
    merge the records are the rows as they are.  For the other operations a
    record only has fields that are non-empty values of the mapping; so when
    every column is mapped to the empty choice, the check of the mapping lets
    the push go on and every record is the empty object. *)
Theorem prepared_records crudOperation keys mappings rows :
  length (prepareData crudOperation keys mappings rows) = length rows ∧
  prepareData "merge" keys mappings rows = rows ∧
  (crudOperation ≠ "merge" ->
   ∀ record v,
     record ∈ prepareData crudOperation keys mappings rows ->
     is_Some (record !! v) ->
     v ≠ "" ∧ ∃ c, c ∈ keys ∧ mappings !! c = Some v) ∧
  (crudOperation ≠ "merge" ->
   keys ≠ [] ->
   (∀ c, c ∈ keys -> mappings !! c = Some "") ->
   ∀ selectedObject file,
     selectedObject ≠ "" ->
     validation selectedObject (Some file) crudOperation keys = None ∧
     Forall (fun record => record = ∅)
       (prepareData crudOperation keys mappings rows)).
Proof.
  split; [|split; [|split]].
  - unfold prepareData. destruct (String.eqb _ _); by rewrite length_fmap.
  - unfold prepareData. simpl. rewrite <- (list_fmap_id rows) at 2.
    apply list_fmap_ext. intros _ row _. apply clean_row_id.
  - intros Hop record v Hrec Hv. unfold prepareData in Hrec.
    apply String.eqb_neq in Hop. rewrite Hop in Hrec.
    apply list_elem_of_fmap in Hrec as (row & -> & _).
    apply mapped_row_fields in Hv as [Hempty|Hv]; [|done].
    rewrite lookup_empty in Hempty. by destruct Hempty.
  - intros Hop Hkeys Hempty selectedObject file Hobj.
    apply String.eqb_neq in Hop. split.
    + unfold validation. destruct selectedObject; [done|].
      rewrite Hop. destruct keys; [done|]. reflexivity.
    + unfold prepareData. rewrite Hop. apply Forall_fmap, Forall_true.
      intros row. simpl. apply map_eq. intros v. rewrite lookup_empty.
      destruct (mapped_row keys mappings row !! v) as [x|] eqn:Hv; [|done].
      assert (Hsome : is_Some (mapped_row keys mappings row !! v)) by eauto.
      apply mapped_row_fields in Hsome as [Hacc|(Hne & c & Hc & Hm)].
      * rewrite lookup_empty in Hacc. by destruct Hacc.
      * rewrite (Hempty c Hc) in Hm. by injection Hm as <-.
Qed.

Lemma prepared_records_witness :
  let mappings : gmap string string := {["Name" := ""]} in
  let rows : list (gmap string string) := [{["Name" := "Acme"]}] in
  validation "account__v" (Some (Mapper.mkFile ["Name"] rows)) "insert" ["Name"]
    = None ∧
  Forall (fun record => record = ∅) (prepareData "insert" ["Name"] mappings rows).
Proof.
  intros mappings rows.
  destruct (prepared_records "insert" ["Name"] mappings rows)
    as (_ & _ & _ & Hempty).
  apply Hempty; try discriminate.
  intros c ->%list_elem_of_singleton. reflexivity.
Defined.



(** X16. The line that reports a batch is at level info only for the status
    200: a batch answered with another ok status (201, 204, ...) is counted
    as a success in the result, but its line is logged at level error, like
    the line of a failed batch. *)
Theorem only_status_200_is_info :
  (∀ i w,
     (detail (Push.pushed_entry i w)).1 = info ↔
     ∃ text, w = Push.WriteResponse 200 text) ∧
  (∀ res i code text,
     response_ok code = true ->
     code ≠ 200 ->
     let res' := Push.record_outcome res i (Push.WriteResponse code text) in
     Push.success res' = Push.success res + 1 ∧
     Push.failures res' = Push.failures res ∧
     ∃ e, last (Push.logs res') = Some e ∧ (detail e).1 = error).
Proof.
  assert (Hinfo : ∀ i w,
            (detail (Push.pushed_entry i w)).1 = info ↔
            ∃ text, w = Push.WriteResponse 200 text).
  { intros i [m stack|code text]; simpl.
    - split; [done | by intros [? ?]].
    - destruct (Z.eq_dec code 200) as [->|Hne].
      + split; [by exists text | done].
      + split; [|by intros [? [= ? ?]]].
        unfold detail. simpl.
        destruct code as [|p|p]; try done.
        do 8 (try (destruct p as [p|p|]; try done)). }
  split; [done|].
  intros res i code text Hok Hne res'.
  destruct (PushSpec.record_outcome_spec res i (Push.WriteResponse code text))
    as (Hlogs & _ & _).
  subst res'. split; [|split].
  - simpl. by rewrite Hok.
  - simpl. by rewrite Hok.
  - exists (Push.pushed_entry i (Push.WriteResponse code text)).
    split; [rewrite Hlogs; apply last_snoc|].
    destruct (detail (Push.pushed_entry i (Push.WriteResponse code text))).1
      eqn:Hlevel; try done.
    + apply Hinfo in Hlevel as [? [= ? ?]]. done.
    + unfold detail in Hlevel. simpl in Hlevel.
      by repeat match type of Hlevel with
                | context [match ?x with _ => _ end] => destruct x
                end.
    + unfold detail in Hlevel. simpl in Hlevel.
      by repeat match type of Hlevel with
                | context [match ?x with _ => _ end] => destruct x
                end.
Qed.

Lemma only_status_200_is_info_witness :
  let res := Push.fresh 1 in
  let res' := Push.record_outcome res 0 (Push.WriteResponse 201 "created") in
  Push.success res' = 1 ∧
  ∃ e, last (Push.logs res') = Some e ∧ (detail e).1 = error.
Proof.
  intros res res'.
  destruct only_status_200_is_info as [_ Hother].
  destruct (Hother res 0%nat 201 "created" eq_refl) as (Hs & _ & He);
    [discriminate|].
  split; [exact Hs | exact He].
Defined.

Lemma endsWith_refl s : endsWith s s = true.
Proof. destruct s; simpl; by rewrite ?String.eqb_refl, ?Ascii.eqb_refl. Qed.

Lemma endsWith_app s suffix : endsWith (s +:+ suffix) suffix = true.
Proof.
  induction s as [|c s IH]; simpl; [apply endsWith_refl|].
  rewrite IH. apply orb_true_r.
Qed.

Lemma toLowerCase_app a b :
  toLowerCase (a +:+ b) = toLowerCase a +:+ toLowerCase b.
Proof. induction a as [|c a IH]; simpl; [done | by rewrite IH]. Qed.

(** X17. After the extension was ensured the name of the file ends with it,
    whatever the case of the letters; a name that already ends with it stays
    as it is, so doing it twice changes nothing more.  (The extension
    itself is in lower case, as '.csv' and '.xlsx' are.) *)
Theorem extension_ensured ext fileName :
  toLowerCase ext = ext ->
  endsWith (toLowerCase (with_extension ext fileName)) ext = true ∧
  (endsWith (toLowerCase fileName) ext = true ->
   with_extension ext fileName = fileName) ∧
  with_extension ext (with_extension ext fileName) =
    with_extension ext fileName.
Proof.
  intros Hext.
  assert (Hends : endsWith (toLowerCase (with_extension ext fileName)) ext = true).
  { unfold with_extension.
    destruct (endsWith (toLowerCase fileName) ext) eqn:Hhas; [done|].
    rewrite toLowerCase_app, Hext. apply endsWith_app. }
  split; [done|]. split.
  - intros Hhas. unfold with_extension. by rewrite Hhas.
  - unfold with_extension at 1. by rewrite Hends.
Qed.

Lemma extension_ensured_witness :
  with_extension ".csv" "Export.CSV" = "Export.CSV" ∧
  endsWith (toLowerCase (with_extension ".csv" "report")) ".csv" = true.
Proof.
  destruct (extension_ensured ".csv" "Export.CSV" eq_refl) as (_ & Hkeep & _).
  destruct (extension_ensured ".csv" "report" eq_refl) as (Hends & _ & _).
  split; [apply Hkeep; reflexivity | exact Hends].
Defined.





(** X19. Whatever is in the batch size field, after [validateBatchSize] it
    reads a number between 1 and the maximum (10 for merge, 2000 otherwise),
    a second validation changes nothing, the size that [pushData] then runs
    with is between 1 and its ceiling (10 or 500), and [pushData] returns. *)
Theorem validated_batch_size {A : Type} srv apiUrl objectName operation
    progressCallback sessionId (data : list A) value :
  ∃ size,
    validateBatchSize operation value = Some size ∧
    1 <= size <= (if String.eqb operation "merge" then 10 else 2000) ∧
    validateBatchSize operation (Some size) = Some size ∧
    1 <= Push.actualBatchSize operation size <= Push.ceiling operation ∧
    ∃ res tr,
      Push.pushData A srv apiUrl objectName operation progressCallback
        (length data) (SessionId sessionId) data size = (Returned res, tr).
Proof.
  assert (Hsize : ∃ size,
            validateBatchSize operation value = Some size ∧
            1 <= size <= (if String.eqb operation "merge" then 10 else 2000)).
  { unfold validateBatchSize. destruct value as [v|]; [|exists 1; split; [done|]].
    - destruct (Z.ltb_spec v 1); [exists 1; split; [done|]|].
      + destruct (String.eqb _ _); lia.
      + destruct (String.eqb operation "merge");
          match goal with
          | |- context [?m <? v] => destruct (Z.ltb_spec m v)
          end; eexists; (split; [done | lia]).
    - destruct (String.eqb _ _); lia. }
  destruct Hsize as (size & Hval & Hrange). exists size.
  split; [done|]. split; [done|]. split; [|split].
  - unfold validateBatchSize.
    destruct (Z.ltb_spec size 1); [lia|].
    destruct (String.eqb operation "merge");
      match goal with
      | |- context [?m <? size] => destruct (Z.ltb_spec m size)
      end; try done; lia.
  - unfold Push.actualBatchSize, Push.ceiling.
    destruct (String.eqb operation "merge"); lia.
  - eexists _, _. apply PushSpec.pushData_prepared.
    apply PushSpec.prepare_sized; [|done].
    apply PushSpec.actualBatchSize_positive. lia.
Qed.

End AppSpec.

(** ** More on the column mapper *)

Module MapperRunSpec.
Import Mapper.

Lemma map_columns_keep_inputs (L : lowering) fields lowered cols :
  ∀ st,
    inputFileData (foldl (map_column L fields lowered) st cols) =
      inputFileData st ∧
    availableFields (foldl (map_column L fields lowered) st cols) =
      availableFields st.
Proof.
  induction cols as [|a rest IH]; intros st; [done|].
  cbn [foldl]. destruct (IH (map_column L fields lowered st a)) as [-> ->].
  rewrite MapperSpec.map_column_chosen. by destruct (chosen L fields lowered a).
Qed.

(** X20. Running the mapper twice in a row gives what running it once
    gives. *)
Theorem autoMapColumns_idempotent (L : lowering) st :
  autoMapColumns L (autoMapColumns L st) = autoMapColumns L st.
Proof.
  destruct (inputFileData st) as [file|] eqn:Hfile;
    [|by rewrite !(MapperSpec.autoMapColumns_guard L st) by (by left)].
  destruct (decide (availableFields st = [])) as [Hnone|Hsome];
    [by rewrite !(MapperSpec.autoMapColumns_guard L st) by (by right)|].
  rewrite (MapperSpec.autoMapColumns_runs L st file Hfile Hsome).
  set (run := foldl _ _ _).
  destruct (map_columns_keep_inputs L (availableFields st)
              (vaultFieldsLower L (availableFields st)) (columns file)
              {| inputFileData := Some file;
                 availableFields := availableFields st;
                 columnMappings := ∅ |}) as [Hf Ha].
  fold run in Hf, Ha. simpl in Hf, Ha.
  rewrite (MapperSpec.autoMapColumns_runs L run file Hf) by (by rewrite Ha).
  by rewrite Ha.
Qed.

(** What a truthy lookup can be: a remote field, or the inherited member
    whose name is the key. *)
Lemma truthy_value (L : lowering) fields key v :
  truthy (vaultFieldsLower L fields) key = Some v ->
  match v with
  | Text field => field ∈ fields
  | Inherited name => name = key ∧ name ∈ Object_prototype
  end.
Proof.
  unfold truthy, read, vaultFieldsLower.
  pose proof (MapperSpec.lower_fold L fields ∅ key) as Hfold.
  destruct (foldl _ _ fields !! key) as [field|].
  - destruct Hfold as [(Hin & _)|Hempty]; [|by rewrite lookup_empty in Hempty].
    destruct field; [discriminate|]. by intros [= <-].
  - case_bool_decide; [|discriminate]. by intros [= <-].
Qed.

(** X21. After a run every key of the mapping is a column of the file, and
    its value is one of the remote fields or, for a column that is no remote
    field, the member that every object inherits under one of the three
    lowered keys of the column.  The second case does occur: when no remote
    field lowers to constructor, the column constructor is mapped to the
    inherited member of that name. *)
Theorem autoMap_entries_are_fields_or_inherited :
  (∀ (L : lowering) st file column v,
     inputFileData st = Some file ->
     availableFields st ≠ [] ->
     columnMappings (autoMapColumns L st) !! column = Some v ->
     column ∈ columns file ∧
     match v with
     | Text field => field ∈ availableFields st
     | Inherited name =>
         ¬ (column ∈ availableFields st) ∧
         name ∈ Object_prototype ∧ name ∈ lookup_keys L column
     end) ∧
  (∀ (L : lowering) st file,
     inputFileData st = Some file ->
     availableFields st ≠ [] ->
     "constructor" ∈ columns file ->
     Forall (fun field => L field ≠ "constructor") (availableFields st) ->
     columnMappings (autoMapColumns L st) !! "constructor" =
       Some (Inherited "constructor")).
Proof.
  split.
  - intros L st file column v Hfile Hfields.
    rewrite (MapperSpec.autoMapColumns_runs L st file Hfile Hfields).
    rewrite MapperSpec.map_columns_lookup. simpl.
    destruct (decide (column ∈ columns file)) as [Hin|Hout];
      [|by rewrite lookup_empty].
    destruct (decide (column = "__proto__")); [by rewrite lookup_empty|].
    unfold chosen, lookup_keys. case_bool_decide as Hexact.
    { by intros [= <-]. }
    destruct (truthy _ (L column)) as [w|] eqn:H1.
    { intros [= <-]. split; [done|]. apply truthy_value in H1.
      destruct w as [f|name]; [done|]. destruct H1 as [-> Hname].
      split; [done|]. split; [done | by left]. }
    destruct (truthy _ (L (replace "_" " " column))) as [w|] eqn:H2.
    { intros [= <-]. split; [done|]. apply truthy_value in H2.
      destruct w as [f|name]; [done|]. destruct H2 as [-> Hname].
      split; [done|]. split; [done | right; by left]. }
    destruct (truthy _ (L (replace " " "_" column))) as [w|] eqn:H3;
      [|by rewrite lookup_empty].
    intros [= <-]. split; [done|]. apply truthy_value in H3.
    destruct w as [f|name]; [done|]. destruct H3 as [-> Hname].
    split; [done|]. split; [done | right; right; by left].
  - intros L st file Hfile Hfields Hcol Hnone.
    rewrite Forall_forall in Hnone.
    rewrite (MapperSpec.autoMapColumns_runs L st file Hfile Hfields).
    rewrite MapperSpec.map_columns_lookup, decide_True, decide_False by done.
    cbn [availableFields].
    assert (Hkey : L "constructor" = "constructor")
      by (by rewrite lower_ascii_text).
    unfold chosen. rewrite bool_decide_eq_false_2.
    2:{ intros Hin. by apply (Hnone _ Hin). }
    rewrite Hkey. unfold truthy, read, vaultFieldsLower.
    pose proof (MapperSpec.lower_fold L (availableFields st) ∅ "constructor")
      as Hfold.
    destruct (foldl _ _ (availableFields st) !! "constructor") as [field|].
    + destruct Hfold as [(Hin & Hlow & _)|Hempty];
        [by apply Hnone in Hin | by rewrite lookup_empty in Hempty].
    + reflexivity.
Qed.

Lemma autoMap_entries_are_fields_or_inherited_witness :
  let st := {| inputFileData :=
                 Some {| columns := ["Account_Name"; "constructor"]; data := [] |};
               availableFields := ["Account Name"; "email"];
               columnMappings := {["Fax" := Text "fax__c"]} |} in
  ("Account_Name" ∈ ["Account_Name"; "constructor"] ∧
   "Account Name" ∈ ["Account Name"; "email"]) ∧
  columnMappings (autoMapColumns ascii_lowering st) !! "constructor" =
    Some (Inherited "constructor").
Proof.
  intros st. destruct autoMap_entries_are_fields_or_inherited as [Hvalues Hslip].
  split.
  - apply (Hvalues ascii_lowering st
             {| columns := ["Account_Name"; "constructor"]; data := [] |}
             "Account_Name" (Text "Account Name") eq_refl);
      [discriminate | reflexivity].
  - apply (Hslip ascii_lowering st
             {| columns := ["Account_Name"; "constructor"]; data := [] |}
             eq_refl); [discriminate | |].
    + apply (bool_decide_unpack _). reflexivity.
    + apply (bool_decide_unpack _). reflexivity.
Defined.

Lemma lower_last (L : lowering) fields key :
  key ≠ "__proto__" ->
  ∀ m : gmap string string,
    foldl (fun m field => assign (L field) field m) m fields !! key =
    match last (filter (fun f => L f = key) fields) with
    | Some field => Some field
    | None => m !! key
    end.
Proof.
  intros Hkey.
  induction fields as [|f rest IH]; intros m; [done|].
  cbn [foldl]. rewrite IH, MapperSpec.assign_lookup.
  destruct (decide (L f = key)) as [Heq|Hne].
  - rewrite filter_cons_True by done.
    destruct (filter _ rest) as [|g gs] eqn:Hrest.
    + simpl. rewrite decide_True, decide_False by (done || by rewrite Heq).
      done.
    + rewrite last_cons_cons.
      destruct (last (g :: gs)) eqn:Hlast; [done|].
      by apply last_None in Hlast.
  - rewrite filter_cons_False by done.
    destruct (last _); [done|]. by rewrite decide_False.
Qed.

(** X22. For a column that is not itself a remote field and does not lower
    to __proto__, when several remote fields lower to what the column lowers
    to, the mapper takes the one that comes last in the list of remote
    fields. *)
Theorem autoMap_takes_last_of_case_variants (L : lowering) st file column field :
  inputFileData st = Some file ->
  availableFields st ≠ [] ->
  column ∈ columns file ->
  column ∉ availableFields st ->
  L column ≠ "__proto__" ->
  last (filter (fun f => L f = L column) (availableFields st)) = Some field ->
  columnMappings (autoMapColumns L st) !! column = Some (Text field).
Proof.
  intros Hfile Hfields Hcol Hnot Hproto Hlast.
  assert (Hname : column ≠ "__proto__").
  { intros ->. apply Hproto. by rewrite lower_ascii_text. }
  rewrite (MapperSpec.autoMapColumns_runs L st file Hfile Hfields).
  rewrite MapperSpec.map_columns_lookup, decide_True, decide_False by done.
  unfold chosen. rewrite bool_decide_eq_false_2 by done.
  unfold truthy at 1, read at 1, vaultFieldsLower.
  cbn [availableFields]. rewrite lower_last, Hlast by done.
  destruct field as [|c rest]; [|done].
  exfalso. apply last_Some in Hlast as [l' Hl'].
  assert (Hin : "" ∈ filter (fun f => L f = L column) (availableFields st)).
  { rewrite Hl'. apply elem_of_app. right. by left. }
  apply list_elem_of_filter in Hin as [Hlow Hin].
  rewrite MapperSpec.lower_of_empty in Hlow. symmetry in Hlow.
  apply lower_not_empty in Hlow. by subst column.
Qed.

Lemma autoMap_takes_last_of_case_variants_witness :
  let st := {| inputFileData := Some {| columns := ["EMAIL"]; data := [] |};
               availableFields := ["Email"; "email"];
               columnMappings := ∅ |} in
  columnMappings (autoMapColumns ascii_lowering st) !! "EMAIL" =
    Some (Text "email").
Proof.
  intros st.
  apply (autoMap_takes_last_of_case_variants ascii_lowering st
           {| columns := ["EMAIL"]; data := [] |} "EMAIL" "email" eq_refl);
    [discriminate | apply (bool_decide_unpack _); reflexivity
    | apply (bool_decide_unpack _); reflexivity | discriminate | reflexivity].
Defined.

End MapperRunSpec.

(** ** The sheets of [FileUtils] *)

Module FilesSpec.
Import Files.






End FilesSpec.

(** ** [ConfigStorage] *)

Module StorageSpec.
Import Storage.

(** X25. A configuration that was saved is the one that is loaded
    afterwards (given that [JSON.parse] undoes [JSON.stringify] on it, and
    the text is not empty); saving the configuration leaves the stored email
    settings as they were, and the other way round; a save that throws
    reports [false] and leaves the storage as it was; nothing stored, or an
    empty text, loads as [null]. *)
Theorem storage_round_trip {Config Email : Type}
    (stringify : Config -> string) (parse : string -> option Config)
    (stringifyE : Email -> string) (parseE : string -> option Email)
    (c : Config) (e : Email) (store : gmap string string) :
  parse (stringify c) = Some c ->
  stringify c ≠ "" ->
  loadConfig Config parse (saveConfig Config stringify true c store).2 = Some c ∧
  loadEmailSettings Email parseE (saveConfig Config stringify true c store).2 =
    loadEmailSettings Email parseE store ∧
  loadConfig Config parse
    (saveEmailSettings Email stringifyE true e store).2 =
    loadConfig Config parse store ∧
  saveConfig Config stringify false c store = (false, store) ∧
  loadConfig Config parse ∅ = None ∧
  loadConfig Config parse (<[STORAGE_KEY := ""]> store) = None.
Proof.
  intros Hparse Hne.
  unfold loadConfig, loadEmailSettings, saveConfig, saveEmailSettings, load, save.
  simpl. repeat split.
  - rewrite lookup_insert_eq. destruct (stringify c); [done | exact Hparse].
  - by rewrite lookup_insert_ne.
  - by rewrite lookup_insert_ne.
  - by rewrite lookup_insert_eq.
Qed.

Lemma storage_round_trip_witness :
  let stringify : string -> string := fun text => String "j" text in
  let parse : string -> option string := fun text =>
    match text with
    | String _ rest => Some rest
    | EmptyString => None
    end in
  loadConfig string parse (saveConfig string stringify true "config" ∅).2 =
  Some "config".
Proof.
  intros stringify parse.
  destruct (storage_round_trip stringify parse stringify parse "config" "email"
              ∅ eq_refl) as (Hload & _); [discriminate|].
  exact Hload.
Defined.

End StorageSpec.
